(** * The long-poll synchronisation engine of [matrix_client.client.MatrixClient]

    A shallow embedding of the listener registries, of the reconciler
    [MatrixClient._sync], of the poll loop [MatrixClient.listen_forever], of
    [MatrixClient.start_listener_thread] and [stop_listener_thread] and of
    [join_room] and [create_room], as they are written in
    [src/zpui_lib/libs/matrix_client/matrix_client/client.py]; and of the
    request path under them, [MatrixHttpApi.sync] and [MatrixHttpApi._send] of
    [api.py] in the same directory.

    Conventions of the model.
    - The client object is a record; every method is a computation in a small
      state-and-exception monad [M]: from the client it starts with, it gives
      its result, the client it ends with and the trace of the effects it
      performed (callback invocations, room bookkeeping, sleeps, thread
      starts), in order.  A Python exception leaves the mutations made so far
      in place, so a raising computation still gives the client it reached.
    - A callback is a handle naming a Python callable.  What a callable does
      when it is invoked is given by [apply_cb], a parameter of the
      development: it may change the client (callbacks close over it and use
      its methods) and it may raise.  Events are handed to callbacks by value.
    - The registries are changed in place only, the way the client's own
      methods change them; iteration over a registry therefore observes the
      changes a callback makes while the loop runs.
    - A room is found under its id in [rooms]: what [_sync] does to
      [room = self.rooms[room_id]] is done to the entry of that id.
    - The presence listeners are a dict, kept as the list of its items in
      insertion order; iteration over it raises once the dict has another
      size than at the start, as Python's does.
    - The client is one built with [encryption=False], the constructor's
      default: every branch of [_sync] guarded by [self._encryption] is
      skipped. *)

From stdpp Require Import base option list strings gmap.
From Stdlib Require Import ZArith Lia.

Local Open Scope Z_scope.
Local Open Scope string_scope.
Local Open Scope list_scope.

(** ** Values *)

(** A listener id, drawn by [uuid4()]: a 128-bit number. *)
Definition uuid := N.

(** The identity of a Python callable registered as a listener. *)
Definition callback := nat.

(** An event is a JSON object; [_sync] reads its ['type'] and writes its
    ['room_id'], both strings. *)
Abbreviation event := (gmap string string).

Inductive exn :=
  | KeyError (key : string)
  | KeyErrorUid (key : uuid)
  | RuntimeError (msg : string)
  | MatrixRequestError (code : Z)
  | OtherError (tag : nat).

(** [OutOfFuel] is not a Python outcome: the model ran out of fuel. *)
Inductive result (A : Type) :=
  | Return (a : A)
  | Raise (e : exn)
  | OutOfFuel.
Arguments Return {A} a.
Arguments Raise {A} e.
Arguments OutOfFuel {A}.

(** ** The sync response *)

(** [{'events': [...]}]; [None] is a missing key. *)
Record event_list := { events : option (list event) }.

Record timeline_section := {
  tl_prev_batch : option string;
  tl_events : option (list event)
}.

Record sync_room := {
  sr_state : option event_list;
  sr_timeline : option timeline_section;
  sr_ephemeral : option event_list
}.

Record invite_room := { invite_state : option event_list }.

(** The three room sections are JSON objects traversed with [.items()]:
    association lists in the order of the document. *)
Record rooms_section := {
  invite : option (list (string * invite_room));
  leave : option (list (string * sync_room));
  join : option (list (string * sync_room))
}.

Record response := {
  next_batch : option string;
  presence : option event_list;
  rooms : option rooms_section;
  to_device : option event_list
}.

(** ** Rooms *)

(** Modelled from the spec: the class [Room] of [room.py], which is not part
    of the sources at hand.  A room owns a pagination cursor, a snapshot of
    its state events keyed by (type, state key), its ordered timeline and its
    ephemeral events. *)
Record Room := {
  room_id : string;
  prev_batch : option string;
  room_state : gmap (option string * option string) event;
  room_events : list event;
  room_ephemeral : list event
}.

(** Modelled from the spec: [Room(client, room_id, ...)], a room with no
    history. *)
Definition new_Room (rid : string) : Room :=
  {| room_id := rid; prev_batch := None; room_state := ∅;
     room_events := []; room_ephemeral := [] |}.

Definition set_prev_batch (pb : string) (r : Room) : Room :=
  {| room_id := room_id r; prev_batch := Some pb; room_state := room_state r;
     room_events := room_events r; room_ephemeral := room_ephemeral r |}.

(** Modelled from the spec: [Room._process_state_event], last write wins per
    (type, state key). *)
Definition _process_state_event (ev : event) (r : Room) : Room :=
  {| room_id := room_id r; prev_batch := prev_batch r;
     room_state := <[(ev !! "type", ev !! "state_key") := ev]> (room_state r);
     room_events := room_events r; room_ephemeral := room_ephemeral r |}.

(** Modelled from the spec: [Room._put_event], append to the timeline. *)
Definition _put_event (ev : event) (r : Room) : Room :=
  {| room_id := room_id r; prev_batch := prev_batch r;
     room_state := room_state r;
     room_events := room_events r ++ [ev]; room_ephemeral := room_ephemeral r |}.

(** Modelled from the spec: [Room._put_ephemeral_event], append to the
    ephemeral events. *)
Definition _put_ephemeral_event (ev : event) (r : Room) : Room :=
  {| room_id := room_id r; prev_batch := prev_batch r;
     room_state := room_state r;
     room_events := room_events r; room_ephemeral := room_ephemeral r ++ [ev] |}.

(** ** The client *)

(** [{'uid': ..., 'callback': ..., 'event_type': ...}] *)
Record listener := {
  uid : uuid;
  l_callback : callback;
  event_type : option string
}.

(** [Thread(target=self.listen_forever, args=(timeout_ms, exception_handler))] *)
Record thread := {
  th_timeout_ms : Z;
  th_exception_handler : option callback
}.

Record MatrixClient := {
  listeners : list listener;
  presence_listeners : list (uuid * callback);
  invite_listeners : list callback;
  left_listeners : list callback;
  ephemeral_listeners : list listener;
  sync_token : option string;
  sync_thread : option thread;
  should_listen : bool;
  bad_sync_timeout_limit : Z;
  client_rooms : gmap string Room
}.

(** The state [__init__] leaves behind when no token is given. *)
Definition init_client : MatrixClient :=
  {| listeners := []; presence_listeners := []; invite_listeners := [];
     left_listeners := []; ephemeral_listeners := [];
     sync_token := None; sync_thread := None; should_listen := false;
     bad_sync_timeout_limit := 60 * 60; client_rooms := ∅ |}.

Definition with_listeners (ls : list listener) (c : MatrixClient) : MatrixClient :=
  {| listeners := ls; presence_listeners := presence_listeners c;
     invite_listeners := invite_listeners c; left_listeners := left_listeners c;
     ephemeral_listeners := ephemeral_listeners c; sync_token := sync_token c;
     sync_thread := sync_thread c; should_listen := should_listen c;
     bad_sync_timeout_limit := bad_sync_timeout_limit c;
     client_rooms := client_rooms c |}.

Definition with_presence_listeners (ps : list (uuid * callback)) (c : MatrixClient)
  : MatrixClient :=
  {| listeners := listeners c; presence_listeners := ps;
     invite_listeners := invite_listeners c; left_listeners := left_listeners c;
     ephemeral_listeners := ephemeral_listeners c; sync_token := sync_token c;
     sync_thread := sync_thread c; should_listen := should_listen c;
     bad_sync_timeout_limit := bad_sync_timeout_limit c;
     client_rooms := client_rooms c |}.

Definition with_invite_listeners (ls : list callback) (c : MatrixClient) : MatrixClient :=
  {| listeners := listeners c; presence_listeners := presence_listeners c;
     invite_listeners := ls; left_listeners := left_listeners c;
     ephemeral_listeners := ephemeral_listeners c; sync_token := sync_token c;
     sync_thread := sync_thread c; should_listen := should_listen c;
     bad_sync_timeout_limit := bad_sync_timeout_limit c;
     client_rooms := client_rooms c |}.

Definition with_left_listeners (ls : list callback) (c : MatrixClient) : MatrixClient :=
  {| listeners := listeners c; presence_listeners := presence_listeners c;
     invite_listeners := invite_listeners c; left_listeners := ls;
     ephemeral_listeners := ephemeral_listeners c; sync_token := sync_token c;
     sync_thread := sync_thread c; should_listen := should_listen c;
     bad_sync_timeout_limit := bad_sync_timeout_limit c;
     client_rooms := client_rooms c |}.

Definition with_ephemeral_listeners (ls : list listener) (c : MatrixClient)
  : MatrixClient :=
  {| listeners := listeners c; presence_listeners := presence_listeners c;
     invite_listeners := invite_listeners c; left_listeners := left_listeners c;
     ephemeral_listeners := ls; sync_token := sync_token c;
     sync_thread := sync_thread c; should_listen := should_listen c;
     bad_sync_timeout_limit := bad_sync_timeout_limit c;
     client_rooms := client_rooms c |}.

Definition with_sync_token (t : option string) (c : MatrixClient) : MatrixClient :=
  {| listeners := listeners c; presence_listeners := presence_listeners c;
     invite_listeners := invite_listeners c; left_listeners := left_listeners c;
     ephemeral_listeners := ephemeral_listeners c; sync_token := t;
     sync_thread := sync_thread c; should_listen := should_listen c;
     bad_sync_timeout_limit := bad_sync_timeout_limit c;
     client_rooms := client_rooms c |}.

Definition with_sync_thread (t : option thread) (c : MatrixClient) : MatrixClient :=
  {| listeners := listeners c; presence_listeners := presence_listeners c;
     invite_listeners := invite_listeners c; left_listeners := left_listeners c;
     ephemeral_listeners := ephemeral_listeners c; sync_token := sync_token c;
     sync_thread := t; should_listen := should_listen c;
     bad_sync_timeout_limit := bad_sync_timeout_limit c;
     client_rooms := client_rooms c |}.

Definition with_should_listen (b : bool) (c : MatrixClient) : MatrixClient :=
  {| listeners := listeners c; presence_listeners := presence_listeners c;
     invite_listeners := invite_listeners c; left_listeners := left_listeners c;
     ephemeral_listeners := ephemeral_listeners c; sync_token := sync_token c;
     sync_thread := sync_thread c; should_listen := b;
     bad_sync_timeout_limit := bad_sync_timeout_limit c;
     client_rooms := client_rooms c |}.

Definition with_bad_sync_timeout_limit (z : Z) (c : MatrixClient) : MatrixClient :=
  {| listeners := listeners c; presence_listeners := presence_listeners c;
     invite_listeners := invite_listeners c; left_listeners := left_listeners c;
     ephemeral_listeners := ephemeral_listeners c; sync_token := sync_token c;
     sync_thread := sync_thread c; should_listen := should_listen c;
     bad_sync_timeout_limit := z;
     client_rooms := client_rooms c |}.

Definition with_rooms (rs : gmap string Room) (c : MatrixClient) : MatrixClient :=
  {| listeners := listeners c; presence_listeners := presence_listeners c;
     invite_listeners := invite_listeners c; left_listeners := left_listeners c;
     ephemeral_listeners := ephemeral_listeners c; sync_token := sync_token c;
     sync_thread := sync_thread c; should_listen := should_listen c;
     bad_sync_timeout_limit := bad_sync_timeout_limit c;
     client_rooms := rs |}.

(** ** The listener registries *)

(** [add_listener]: [u] is the id [uuid4()] has drawn.  The new entry goes to
    the end of the list and the id is returned. *)
Definition add_listener (u : uuid) (cb : callback) (ty : option string)
    (c : MatrixClient) : uuid * MatrixClient :=
  (u, with_listeners
        (listeners c ++ [{| uid := u; l_callback := cb; event_type := ty |}]) c).

(** [self.listeners[:] = (l for l in self.listeners if l['uid'] != uid)]: the
    generator is exhausted first, then the list is overwritten in place. *)
Definition remove_listener (u : uuid) (c : MatrixClient) : MatrixClient :=
  with_listeners (filter (λ l, uid l ≠ u) (listeners c)) c.

(** [d[k] = v] on an insertion-ordered dict: an existing key keeps its place. *)
Fixpoint dict_set {V} (k : uuid) (v : V) (d : list (uuid * V)) : list (uuid * V) :=
  match d with
  | [] => [(k, v)]
  | (k', v') :: d' => if decide (k' = k) then (k, v) :: d' else (k', v') :: dict_set k v d'
  end.

(** [d.pop(k)]: the dict without [k], or [None] when [k] is not a key. *)
Fixpoint dict_pop {V} (k : uuid) (d : list (uuid * V)) : option (list (uuid * V)) :=
  match d with
  | [] => None
  | (k', v') :: d' =>
      if decide (k' = k) then Some d'
      else match dict_pop k d' with
           | Some d'' => Some ((k', v') :: d'')
           | None => None
           end
  end.

Definition add_presence_listener (u : uuid) (cb : callback) (c : MatrixClient)
  : uuid * MatrixClient :=
  (u, with_presence_listeners (dict_set u cb (presence_listeners c)) c).

(** [self.presence_listeners.pop(uid)] has no default: a missing id raises. *)
Definition remove_presence_listener (u : uuid) (c : MatrixClient)
  : result unit * MatrixClient :=
  match dict_pop u (presence_listeners c) with
  | Some d => (Return tt, with_presence_listeners d c)
  | None => (Raise (KeyErrorUid u), c)
  end.

Definition add_ephemeral_listener (u : uuid) (cb : callback) (ty : option string)
    (c : MatrixClient) : uuid * MatrixClient :=
  (u, with_ephemeral_listeners
        (ephemeral_listeners c ++ [{| uid := u; l_callback := cb; event_type := ty |}]) c).

Definition remove_ephemeral_listener (u : uuid) (c : MatrixClient) : MatrixClient :=
  with_ephemeral_listeners (filter (λ l, uid l ≠ u) (ephemeral_listeners c)) c.

(** [add_invite_listener] and [add_leave_listener] have no [return]: the call
    evaluates to Python's [None], which is [None] of [option uuid] here. *)
Definition add_invite_listener (cb : callback) (c : MatrixClient)
  : option uuid * MatrixClient :=
  (None, with_invite_listeners (invite_listeners c ++ [cb]) c).

Definition add_leave_listener (cb : callback) (c : MatrixClient)
  : option uuid * MatrixClient :=
  (None, with_left_listeners (left_listeners c ++ [cb]) c).

(** ** Effects *)

Inductive scope := Global | Presence | Invite | Leave | Ephemeral | Handler.

(** The positional arguments a callback is invoked with. *)
Inductive cb_args :=
  | EventArg (ev : event)
  | InviteArgs (rid : string) (st : event_list)
  | LeaveArgs (rid : string) (left_room : sync_room)
  | ExnArg (e : exn).

(** What a method does that is visible from outside, in the order it does it. *)
Inductive action :=
  | SetSyncToken (tok : string)
  | Call (sc : scope) (cb : callback) (args : cb_args)
  | DelRoom (rid : string)
  | MkRoom (rid : string)
  | SetPrevBatch (rid : string) (pb : string)
  | ProcessStateEvent (rid : string) (ev : event)
  | PutEvent (rid : string) (ev : event)
  | PutEphemeralEvent (rid : string) (ev : event)
  | Sleep (secs : Z)
  | ThreadStart (t : thread)
  | ThreadJoin (t : thread).

Record outcome (A : Type) := {
  res : result A;
  final : MatrixClient;
  trace : list action
}.
Arguments res {A} o.
Arguments final {A} o.
Arguments trace {A} o.

Definition M (A : Type) : Type := MatrixClient → outcome A.

Definition ret {A} (a : A) : M A :=
  λ c, {| res := Return a; final := c; trace := [] |}.

Definition raise {A} (e : exn) : M A :=
  λ c, {| res := Raise e; final := c; trace := [] |}.

Definition out_of_fuel {A} : M A :=
  λ c, {| res := OutOfFuel; final := c; trace := [] |}.

Definition bind {A B} (m : M A) (k : A → M B) : M B :=
  λ c, let o := m c in
       match res o with
       | Return a =>
           let o' := k a (final o) in
           {| res := res o'; final := final o'; trace := trace o ++ trace o' |}
       | Raise e => {| res := Raise e; final := final o; trace := trace o |}
       | OutOfFuel => {| res := OutOfFuel; final := final o; trace := trace o |}
       end.

Declare Scope py_scope.
Delimit Scope py_scope with py.
Notation "'let*' x := m 'in' k" := (bind m (λ x, k))
  (at level 10, x name, m at level 100, k at level 200) : py_scope.
Notation "m >> k" := (bind m (λ _, k))
  (at level 80, right associativity) : py_scope.
Local Open Scope py_scope.

(** [try: m  except Exception as e: h e] *)
Definition try_except {A} (m : M A) (h : exn → M A) : M A :=
  λ c, let o := m c in
       match res o with
       | Raise e =>
           let o' := h e (final o) in
           {| res := res o'; final := final o'; trace := trace o ++ trace o' |}
       | _ => o
       end.

Definition get {A} (f : MatrixClient → A) : M A :=
  λ c, {| res := Return (f c); final := c; trace := [] |}.

(** A mutation of the client, logged as [a]. *)
Definition update (f : MatrixClient → MatrixClient) (a : action) : M unit :=
  λ c, {| res := Return tt; final := f c; trace := [a] |}.

Definition modify (f : MatrixClient → MatrixClient) : M unit :=
  λ c, {| res := Return tt; final := f c; trace := [] |}.

Definition log (a : action) : M unit :=
  λ c, {| res := Return tt; final := c; trace := [a] |}.

(** [d[key]] on a JSON object. *)
Definition getitem {A} (key : string) (field : option A) : M A :=
  match field with
  | Some a => ret a
  | None => raise (KeyError key)
  end.

(** [for x in xs: body(x)] over a list no callback can reach. *)
Fixpoint for_each {A} (xs : list A) (body : A → M unit) : M unit :=
  match xs with
  | [] => ret tt
  | x :: xs' => body x >> for_each xs' body
  end.

(** [for x in registry: body(x)] over a list of the client.  The list iterator
    keeps an index into the list object and reads the list as it is at each
    step.  A body that keeps appending makes the loop run on: [fuel] bounds
    the number of steps of the model. *)
Fixpoint for_live {A} (fuel : nat) (registry : MatrixClient → list A) (i : nat)
    (body : A → M unit) : M unit :=
  match fuel with
  | O => out_of_fuel
  | S fuel' =>
      λ c, match registry c !! i with
           | None => ret tt c
           | Some x => (body x >> for_live fuel' registry (S i) body) c
           end
  end.

(** [for v in self.presence_listeners.values(): body(v)].  The dict iterator
    remembers the size of the dict and raises at the first step that finds
    another size; [n] counts the entries not yet visited. *)
Fixpoint for_presence_values (size0 n : nat) (body : callback → M unit) : M unit :=
  λ c,
    if decide (length (presence_listeners c) = size0) then
      match n with
      | O => ret tt c
      | S n' =>
          match presence_listeners c !! (size0 - n)%nat with
          | Some (_, cb) => (body cb >> for_presence_values size0 n' body) c
          | None => ret tt c
          end
      end
    else raise (RuntimeError "dictionary changed size during iteration") c.

Section Reconciler.

(** What invoking a callable does: its result and the client it leaves. *)
Variable apply_cb : callback → cb_args → MatrixClient → result unit * MatrixClient.

Definition call (sc : scope) (cb : callback) (args : cb_args) : M unit :=
  λ c, let rc := apply_cb cb args c in
       {| res := rc.1; final := rc.2; trace := [Call sc cb args] |}.

(** [listener['event_type'] is None or listener['event_type'] == event['type']]:
    the event's type is looked up only for a filtering listener. *)
Definition accepts (l : listener) (ev : event) : M bool :=
  match event_type l with
  | None => ret true
  | Some ty => let* t := getitem "type" (ev !! "type") in ret (bool_decide (ty = t))
  end.

(** The fan-out of one event over a registry of filtering listeners
    (client.py, lines 727-732 and 742-747). *)
Definition dispatch (fuel : nat) (sc : scope) (registry : MatrixClient → list listener)
    (ev : event) : M unit :=
  for_live fuel registry 0 (λ l,
    let* ok := accepts l ev in
    if ok : bool then call sc (l_callback l) (EventArg ev) else ret tt).

(** [MatrixClient._mkroom], encryption off. *)
Definition _mkroom (rid : string) : M unit :=
  update (λ c, with_rooms (<[rid := new_Room rid]> (client_rooms c)) c) (MkRoom rid).

(** A method call or an attribute assignment on [room = self.rooms[room_id]]. *)
Definition on_room (rid : string) (f : Room → Room) (a : action) : M unit :=
  update (λ c, with_rooms (alter f rid (client_rooms c)) c) a.

(** The body of [for room_id, sync_room in response['rooms']['join'].items()]. *)
Definition sync_joined_room (fuel : nat) (rid : string) (sr : sync_room) : M unit :=
  let* known := get (λ c, bool_decide (is_Some (client_rooms c !! rid))) in
  (if known : bool then ret tt else _mkroom rid) >>
  let* tl := getitem "timeline" (sr_timeline sr) in
  let* pb := getitem "prev_batch" (tl_prev_batch tl) in
  on_room rid (set_prev_batch pb) (SetPrevBatch rid pb) >>
  let* st := getitem "state" (sr_state sr) in
  let* sevs := getitem "events" (events st) in
  for_each sevs (λ ev,
    let ev := <["room_id" := rid]> ev in
    on_room rid (_process_state_event ev) (ProcessStateEvent rid ev)) >>
  let* tl := getitem "timeline" (sr_timeline sr) in
  let* tevs := getitem "events" (tl_events tl) in
  for_each tevs (λ ev,
    let ev := <["room_id" := rid]> ev in
    on_room rid (_put_event ev) (PutEvent rid ev) >>
    dispatch fuel Global listeners ev) >>
  let* ep := getitem "ephemeral" (sr_ephemeral sr) in
  let* eevs := getitem "events" (events ep) in
  for_each eevs (λ ev,
    let ev := <["room_id" := rid]> ev in
    on_room rid (_put_ephemeral_event ev) (PutEphemeralEvent rid ev) >>
    dispatch fuel Ephemeral ephemeral_listeners ev).

Definition sync_presence (resp : response) : M unit :=
  let* pr := getitem "presence" (presence resp) in
  let* pevs := getitem "events" (events pr) in
  for_each pevs (λ presence_update,
    let* size0 := get (λ c, length (presence_listeners c)) in
    for_presence_values size0 size0 (λ cb, call Presence cb (EventArg presence_update))).

Definition sync_invite (fuel : nat) (resp : response) : M unit :=
  let* rs := getitem "rooms" (rooms resp) in
  let* inv := getitem "invite" (invite rs) in
  for_each inv (λ '(rid, invite_room),
    for_live fuel invite_listeners 0 (λ cb,
      let* st := getitem "invite_state" (invite_state invite_room) in
      call Invite cb (InviteArgs rid st))).

Definition sync_leave (fuel : nat) (resp : response) : M unit :=
  let* rs := getitem "rooms" (rooms resp) in
  let* lv := getitem "leave" (leave rs) in
  for_each lv (λ '(rid, left_room),
    for_live fuel left_listeners 0 (λ cb, call Leave cb (LeaveArgs rid left_room)) >>
    let* known := get (λ c, bool_decide (is_Some (client_rooms c !! rid))) in
    if known : bool
    then update (λ c, with_rooms (delete rid (client_rooms c)) c) (DelRoom rid)
    else ret tt).

(** [if 'to_device' in response: for event in response['to_device']['events']],
    whose body does nothing without encryption. *)
Definition sync_to_device (resp : response) : M unit :=
  match to_device resp with
  | None => ret tt
  | Some td => let* _ := getitem "events" (events td) in ret tt
  end.

Definition sync_join (fuel : nat) (resp : response) : M unit :=
  let* rs := getitem "rooms" (rooms resp) in
  let* jn := getitem "join" (join rs) in
  for_each jn (λ '(rid, sr), sync_joined_room fuel rid sr).

(** [MatrixClient._sync].  [reply] is what [self.api.sync(...)] gives: the
    decoded response, or the exception the request ends with. *)
Definition _sync (fuel : nat) (reply : result response) : M unit :=
  let* resp := (λ c, {| res := reply; final := c; trace := [] |}) in
  let* tok := getitem "next_batch" (next_batch resp) in
  update (with_sync_token (Some tok)) (SetSyncToken tok) >>
  sync_presence resp >>
  sync_invite fuel resp >>
  sync_leave fuel resp >>
  sync_to_device resp >>
  sync_join fuel resp.

(** ** The poll loop *)

(** What [listen_forever] does with an exception that is not a server-side
    failure: hand it to the handler, or re-raise it. *)
Definition handle_or_raise (exception_handler : option callback) (e : exn) : M unit :=
  match exception_handler with
  | Some h => call Handler h (ExnArg e)
  | None => raise e
  end.

(** The [while (self.should_listen)] loop of [listen_forever].  [replies] are
    the outcomes of the successive [api.sync] requests; the model stops with
    [OutOfFuel] when the loop asks for one more than it was given.
    [_bad_sync_timeout] is the local variable of that name, [bad_sync_timeout]
    the argument. *)
Fixpoint listen_loop (fuel : nat) (replies : list (result response))
    (exception_handler : option callback) (bad_sync_timeout _bad_sync_timeout : Z)
  : M unit :=
  let* go := get should_listen in
  if go : bool then
    match replies with
    | [] => out_of_fuel
    | reply :: replies' =>
        let* _bad_sync_timeout' :=
          try_except
            (_sync fuel reply >> ret bad_sync_timeout)
            (λ e,
              match e with
              | MatrixRequestError code =>
                  if decide (code >= 500) then
                    log (Sleep bad_sync_timeout) >>
                    let* limit := get bad_sync_timeout_limit in
                    ret (Z.min (_bad_sync_timeout * 2) limit)
                  else handle_or_raise exception_handler e >> ret _bad_sync_timeout
              | _ => handle_or_raise exception_handler e >> ret _bad_sync_timeout
              end) in
        listen_loop fuel replies' exception_handler bad_sync_timeout _bad_sync_timeout'
    end
  else ret tt.

(** [MatrixClient.listen_forever]; [timeout_ms] only travels to the request. *)
Definition listen_forever (fuel : nat) (replies : list (result response))
    (exception_handler : option callback) (bad_sync_timeout : Z) : M unit :=
  modify (with_should_listen true) >>
  listen_loop fuel replies exception_handler bad_sync_timeout bad_sync_timeout.

End Reconciler.

(** [MatrixClient.start_listener_thread].  [start_ok] tells whether
    [thread.start()] succeeds or raises [RuntimeError]; a started thread is
    a worker that runs [listen_forever]. *)
Definition start_listener_thread (start_ok : bool) (timeout_ms : Z)
    (exception_handler : option callback) : M unit :=
  try_except
    (let thread := {| th_timeout_ms := timeout_ms;
                      th_exception_handler := exception_handler |} in
     modify (with_sync_thread (Some thread)) >>
     modify (with_should_listen true) >>
     if start_ok then log (ThreadStart thread)
     else raise (RuntimeError "can't start new thread"))
    (λ e, match e with
          | RuntimeError _ => ret tt
          | _ => raise e
          end).

(** [MatrixClient.stop_listener_thread].  [join_error] tells whether
    [self.sync_thread.join()] returns ([None]) or raises [RuntimeError] with
    the given message, as it does for a thread that was never started and for
    the calling thread itself. *)
Definition stop_listener_thread (join_error : option string) : M unit :=
  let* th := get sync_thread in
  match th with
  | Some t =>
      modify (with_should_listen false) >>
      match join_error with
      | None => log (ThreadJoin t)
      | Some msg => raise (RuntimeError msg)
      end >>
      modify (with_sync_thread None)
  | None => ret tt
  end.

(** The poll loop is Running when a worker thread is recorded, Idle otherwise. *)
Definition running (c : MatrixClient) : bool :=
  bool_decide (is_Some (sync_thread c)).

(** ** Callbacks and values used in the examples *)

(** Callables that only observe. *)
Definition observers (cb : callback) (args : cb_args) (c : MatrixClient)
  : result unit * MatrixClient := (Return tt, c).

(** Callable [0] only observes; callable [n], [n > 0], unregisters the global
    listener whose id is [n], with [client.remove_listener(n)]. *)
Definition unregistering (cb : callback) (args : cb_args) (c : MatrixClient)
  : result unit * MatrixClient :=
  match cb with
  | O => (Return tt, c)
  | S _ => (Return tt, remove_listener (N.of_nat cb) c)
  end.

Definition ev_A : event := {[ "type" := "A" ]}.
Definition ev_B : event := {[ "type" := "B" ]}.

(** L1, with type filter "A", is registered before L2, which has no filter. *)
Definition L1 : listener := {| uid := 1%N; l_callback := 1%nat; event_type := Some "A" |}.
Definition L2 : listener := {| uid := 2%N; l_callback := 2%nat; event_type := None |}.
Definition client_L1_L2 : MatrixClient :=
  (add_listener 2%N 2%nat None (add_listener 1%N 1%nat (Some "A") init_client).2).2.

(** Two unfiltered listeners; under [unregistering] the first one unregisters
    itself when it is called, the second one only observes. *)
Definition client_self_removing : MatrixClient :=
  (add_listener 2%N 0%nat None (add_listener 1%N 1%nat None init_client).2).2.

(** Three unfiltered listeners; under [unregistering] the first one
    unregisters the third one, the others only observe. *)
Definition client_removing_later : MatrixClient :=
  (add_listener 3%N 0%nat None
     (add_listener 2%N 0%nat None (add_listener 1%N 3%nat None init_client).2).2).2.

(** A client that holds the token "s1" and one presence listener. *)
Definition client_s1 : MatrixClient :=
  (add_presence_listener 9%N 0%nat (with_sync_token (Some "s1") init_client)).2.

(** ** Well-formed batches and what reconciling them should do *)

(** The input contract of the reconciler: a batch with every section the
    reconciler subscripts. *)
Record joined_room := {
  j_prev_batch : string;
  j_state : list event;
  j_timeline : list event;
  j_ephemeral : list event
}.

Record batch := {
  b_next_batch : string;
  b_presence : list event;
  b_invite : list (string * event_list);
  b_leave : list (string * sync_room);
  b_join : list (string * joined_room);
  b_to_device : option (list event)
}.

Definition to_sync_room (j : joined_room) : sync_room :=
  {| sr_state := Some {| events := Some (j_state j) |};
     sr_timeline := Some {| tl_prev_batch := Some (j_prev_batch j);
                            tl_events := Some (j_timeline j) |};
     sr_ephemeral := Some {| events := Some (j_ephemeral j) |} |}.

Definition to_response (b : batch) : response :=
  {| next_batch := Some (b_next_batch b);
     presence := Some {| events := Some (b_presence b) |};
     rooms := Some {|
       invite := Some (map (λ p, (p.1, {| invite_state := Some p.2 |})) (b_invite b));
       leave := Some (b_leave b);
       join := Some (map (λ p, (p.1, to_sync_room p.2)) (b_join b)) |};
     to_device := option_map (λ evs, {| events := Some evs |}) (b_to_device b) |}.

(** A listener wants an event when it has no filter or its filter is the
    event's type. *)
Definition wants (ev : event) (l : listener) : Prop :=
  event_type l = None ∨ event_type l = ev !! "type".

Global Instance wants_dec ev l : Decision (wants ev l).
Proof. unfold wants. apply _. Defined.

(** The fan-out the spec asks for: the listeners that want the event, each
    once, in registration order. *)
Definition fan_out (sc : scope) (ls : list listener) (ev : event) : list action :=
  map (λ l, Call sc (l_callback l) (EventArg ev)) (filter (wants ev) ls).

(** The event as it is after [event['room_id'] = room_id]. *)
Definition in_room (rid : string) (ev : event) : event := <["room_id" := rid]> ev.

(** Step 2 of the spec's algorithm. *)
Definition presence_steps (c : MatrixClient) (pevs : list event) : list action :=
  flat_map (λ pu, map (λ p, Call Presence p.2 (EventArg pu)) (presence_listeners c)) pevs.

(** Step 3. *)
Definition invite_steps (c : MatrixClient) (inv : list (string * event_list))
  : list action :=
  flat_map (λ p, map (λ cb, Call Invite cb (InviteArgs p.1 p.2)) (invite_listeners c)) inv.

(** Step 4: [known] are the ids of the active rooms. *)
Fixpoint leave_steps (c : MatrixClient) (known : gset string)
    (lv : list (string * sync_room)) : list action :=
  match lv with
  | [] => []
  | (rid, left_room) :: lv' =>
      map (λ cb, Call Leave cb (LeaveArgs rid left_room)) (left_listeners c)
      ++ (if decide (rid ∈ known) then [DelRoom rid] else [])
      ++ leave_steps c (known ∖ {[rid]}) lv'
  end.

Definition rooms_after_leave (known : gset string) (lv : list (string * sync_room))
  : gset string :=
  foldl (λ k p, k ∖ {[p.1]}) known lv.

(** Step 5, for one joined room. *)
Definition joined_room_steps (c : MatrixClient) (known : gset string)
    (rid : string) (jr : joined_room) : list action :=
  (if decide (rid ∈ known) then [] else [MkRoom rid])
  ++ [SetPrevBatch rid (j_prev_batch jr)]
  ++ map (λ ev, ProcessStateEvent rid (in_room rid ev)) (j_state jr)
  ++ flat_map (λ ev, PutEvent rid (in_room rid ev)
                     :: fan_out Global (listeners c) (in_room rid ev)) (j_timeline jr)
  ++ flat_map (λ ev, PutEphemeralEvent rid (in_room rid ev)
                     :: fan_out Ephemeral (ephemeral_listeners c) (in_room rid ev))
       (j_ephemeral jr).

Fixpoint join_steps (c : MatrixClient) (known : gset string)
    (jn : list (string * joined_room)) : list action :=
  match jn with
  | [] => []
  | (rid, jr) :: jn' =>
      joined_room_steps c known rid jr ++ join_steps c ({[rid]} ∪ known) jn'
  end.

Definition rooms_after_join (known : gset string) (jn : list (string * joined_room))
  : gset string :=
  foldl (λ k p, {[p.1]} ∪ k) known jn.

(** The five steps in the order of the spec. *)
Definition reconcile_steps (c : MatrixClient) (b : batch) : list action :=
  let known := dom (client_rooms c) in
  [SetSyncToken (b_next_batch b)]
  ++ presence_steps c (b_presence b)
  ++ invite_steps c (b_invite b)
  ++ leave_steps c known (b_leave b)
  ++ join_steps c (rooms_after_leave known (b_leave b)) (b_join b).

(** Every timeline and ephemeral event of the batch has a type. *)
Definition typed_events (b : batch) : Prop :=
  Forall (λ p, Forall (λ ev : event, is_Some (ev !! "type")) (j_timeline p.2)
               ∧ Forall (λ ev : event, is_Some (ev !! "type")) (j_ephemeral p.2))
         (b_join b).

(** The five registries of [c] are those of [c0], the token is [tok] and
    the active rooms are [known]. *)
Definition st (c0 : MatrixClient) (tok : option string) (known : gset string)
    (c : MatrixClient) : Prop :=
  listeners c = listeners c0
  ∧ presence_listeners c = presence_listeners c0
  ∧ invite_listeners c = invite_listeners c0
  ∧ left_listeners c = left_listeners c0
  ∧ ephemeral_listeners c = ephemeral_listeners c0
  ∧ sync_token c = tok
  ∧ dom (client_rooms c) = known.

(** Callbacks that return and leave the registries, the token and the set
    of active rooms as they found them. *)
Definition well_behaved
    (apply_cb : callback → cb_args → MatrixClient → result unit * MatrixClient) : Prop :=
  ∀ cb args c,
    (apply_cb cb args c).1 = Return tt
    ∧ st c (sync_token c) (dom (client_rooms c)) (apply_cb cb args c).2.

(** The longest registry of a client: fuel beyond it lets every loop of
    [_sync] finish when the registries stay as they are. *)
Definition registry_bound (c : MatrixClient) : nat :=
  Nat.max (Nat.max (length (listeners c)) (length (invite_listeners c)))
          (Nat.max (length (left_listeners c)) (length (ephemeral_listeners c))).

(** [m], started in a state of [P], returns [a], performs [t] and ends in a
    state of [Q]. *)
Definition triple {A} (P : MatrixClient → Prop) (m : M A) (a : A) (t : list action)
    (Q : MatrixClient → Prop) : Prop :=
  ∀ c, P c → res (m c) = Return a ∧ trace (m c) = t ∧ Q (final (m c)).

(** Every effect of [m] is one of [P], however [m] ends. *)
Definition emits {A} (P : action → Prop) (m : M A) : Prop :=
  ∀ c, Forall P (trace (m c)).

(** ** Events as listeners and rooms get them *)






(** The invocations of global listeners in a trace: who was called, with
    which event. *)
Definition global_call (a : action) : option (callback * event) :=
  match a with
  | Call Global cb (EventArg ev) => Some (cb, ev)
  | _ => None
  end.

Definition global_calls (t : list action) : list (callback * event) :=
  omap global_call t.

(** What the spec asks of them: room by room and timeline event by timeline
    event, the listeners that want the event, in registration order. *)
Definition expected_global_calls (c : MatrixClient) (b : batch)
  : list (callback * event) :=
  flat_map (λ p,
    flat_map (λ raw,
      map (λ l, (l_callback l, in_room p.1 raw))
          (filter (wants (in_room p.1 raw)) (listeners c)))
      (j_timeline p.2))
    (b_join b).

(** A callback that runs for the listener at position [i] of the registry and
    finds the registry a sub-sequence of the initial one returns and takes
    away only entries behind position [i]. *)
Definition removes_later_only
    (apply_cb : callback → cb_args → MatrixClient → result unit * MatrixClient)
    (c0 : MatrixClient) (ev : event) : Prop :=
  ∀ (c : MatrixClient) (i : nat) (l : listener),
    sublist (listeners c) (listeners c0) →
    listeners c !! i = Some l →
    wants ev l →
    (apply_cb (l_callback l) (EventArg ev) c).1 = Return tt
    ∧ sublist (listeners (apply_cb (l_callback l) (EventArg ev) c).2) (listeners c)
    ∧ take (S i) (listeners (apply_cb (l_callback l) (EventArg ev) c).2)
      = take (S i) (listeners c).

(** ** The order of the steps *)

(** The step of the spec's algorithm an effect belongs to: 1 the token, 2
    the presence dispatch, 3 the invite dispatch, 4 the left rooms, 5 the
    joined rooms; 6 is what no step of the reconciler does. *)
Definition step_of (a : action) : nat :=
  match a with
  | SetSyncToken _ => 1
  | Call Presence _ _ => 2
  | Call Invite _ _ => 3
  | Call Leave _ _ | DelRoom _ => 4
  | MkRoom _ | SetPrevBatch _ _ | ProcessStateEvent _ _ | PutEvent _ _
  | PutEphemeralEvent _ _ | Call Global _ _ | Call Ephemeral _ _ => 5
  | Call Handler _ _ | Sleep _ | ThreadStart _ | ThreadJoin _ => 6
  end.

(** Within step 5, for one joined room: 1 the creation of the room, 2 the
    pagination cursor, 3 the state events, 4 the timeline events and their
    fan-out to the global listeners, 5 the ephemeral events and their fan-out
    to the ephemeral listeners. *)
Definition substep_of (a : action) : nat :=
  match a with
  | MkRoom _ => 1
  | SetPrevBatch _ _ => 2
  | ProcessStateEvent _ _ => 3
  | PutEvent _ _ | Call Global _ _ => 4
  | PutEphemeralEvent _ _ | Call Ephemeral _ _ => 5
  | _ => 0
  end.

(** No effect of [t] is followed by an effect of a smaller key. *)
Fixpoint in_order (key : action → nat) (t : list action) : Prop :=
  match t with
  | [] => True
  | a :: t' => Forall (λ b, (key a ≤ key b)%nat) t' ∧ in_order key t'
  end.

(** The effects of [m] come in the order of [key], with keys from [lo] to
    [hi], however [m] ends. *)
Definition steps_within {A} (key : action → nat) (lo hi : nat) (m : M A) : Prop :=
  ∀ c, in_order key (trace (m c))
       ∧ Forall (λ a, (lo ≤ key a ≤ hi)%nat) (trace (m c)).

(** ** Batches used in the examples *)

(** Room "!r" joined, with one timeline event of type "A" and one of type "B". *)
Definition batch_join : batch :=
  {| b_next_batch := "s2"; b_presence := []; b_invite := []; b_leave := [];
     b_join := [("!r", {| j_prev_batch := "p"; j_state := [];
                          j_timeline := [ev_A; ev_B]; j_ephemeral := [] |})];
     b_to_device := None |}.

(** An invitation to room "!r" and nothing else. *)
Definition batch_invite : batch :=
  {| b_next_batch := "s2"; b_presence := [];
     b_invite := [("!r", {| events := Some [] |})];
     b_leave := []; b_join := []; b_to_device := None |}.


(** A response with a token and one presence update but no "rooms". *)
Definition response_without_rooms : response :=
  {| next_batch := Some "s2";
     presence := Some {| events := Some [ev_A] |};
     rooms := None; to_device := None |}.

(** ** More of the poll loop and of the reconciler *)

(** The steps of one batch when the active rooms are [known]. *)
Definition batch_steps (c : MatrixClient) (known : gset string) (b : batch)
  : list action :=
  [SetSyncToken (b_next_batch b)]
  ++ presence_steps c (b_presence b)
  ++ invite_steps c (b_invite b)
  ++ leave_steps c known (b_leave b)
  ++ join_steps c (rooms_after_leave known (b_leave b)) (b_join b).

Definition rooms_after_batch (known : gset string) (b : batch) : gset string :=
  rooms_after_join (rooms_after_leave known (b_leave b)) (b_join b).

(** The steps of several batches, one after the other. *)
Fixpoint batches_steps (c : MatrixClient) (known : gset string) (bs : list batch)
  : list action :=
  match bs with
  | [] => []
  | b :: bs' => batch_steps c known b ++ batches_steps c (rooms_after_batch known b) bs'
  end.

(** The token after several batches: the one of the last batch. *)
Definition token_after (tok : option string) (bs : list batch) : option string :=
  foldl (λ _ b, Some (b_next_batch b)) tok bs.

(** Callbacks that leave [should_listen] as it is. *)
Definition keeps_listening
    (apply_cb : callback → cb_args → MatrixClient → result unit * MatrixClient) : Prop :=
  ∀ cb args c, should_listen (apply_cb cb args c).2 = should_listen c.

(** [m] leaves the observation [f] of the client as it found it, however it
    ends. *)
Definition preserves {A B} (f : MatrixClient → B) (m : M A) : Prop :=
  ∀ c, f (final (m c)) = f c.

(** A failure of [api.sync] that [listen_forever] answers by waiting. *)
Definition server_side (e : exn) : Prop :=
  ∃ code, e = MatrixRequestError code ∧ code >= 500.

(** The [except] clauses of [listen_forever], as [listen_loop] has them: what
    is done with the exception [e] of a failed iteration, and the value the
    local [_bad_sync_timeout] has afterwards. *)
Definition on_sync_error
    (apply_cb : callback → cb_args → MatrixClient → result unit * MatrixClient)
    (exception_handler : option callback) (bad_sync_timeout _bad_sync_timeout : Z)
    (e : exn) : M Z :=
  match e with
  | MatrixRequestError code =>
      if decide (code >= 500) then
        log (Sleep bad_sync_timeout) >>
        let* limit := get bad_sync_timeout_limit in
        ret (Z.min (_bad_sync_timeout * 2) limit)
      else handle_or_raise apply_cb exception_handler e >> ret _bad_sync_timeout
  | _ => handle_or_raise apply_cb exception_handler e >> ret _bad_sync_timeout
  end.

(** Callables that ask the loop to stop: each clears [should_listen]. *)
Definition stopping (cb : callback) (args : cb_args) (c : MatrixClient)
  : result unit * MatrixClient := (Return tt, with_should_listen false c).

(** Callables that register, at each call, one more unfiltered global
    listener with the same callable, as [client.add_listener(callback)]
    does; the id is the one [uuid4()] draws, here the next free number. *)
Definition registering (cb : callback) (args : cb_args) (c : MatrixClient)
  : result unit * MatrixClient :=
  (Return tt, (add_listener (N.of_nat (length (listeners c))) cb None c).2).

(** Callables that unregister the presence listener whose id is their own
    number, with [client.remove_presence_listener(n)]. *)
Definition unregistering_presence (cb : callback) (args : cb_args) (c : MatrixClient)
  : result unit * MatrixClient :=
  remove_presence_listener (N.of_nat cb) c.

(** Callable [1] raises, the others only observe. *)
Definition faulty (cb : callback) (args : cb_args) (c : MatrixClient)
  : result unit * MatrixClient :=
  match cb with
  | 1%nat => (Raise (OtherError 0), c)
  | _ => (Return tt, c)
  end.

(** A client with one presence listener, of id 9 and callable 9. *)
Definition client_presence : MatrixClient :=
  (add_presence_listener 9%N 9%nat init_client).2.

(** The fan-out body of [dispatch], by name. *)
Definition offer
    (apply_cb : callback → cb_args → MatrixClient → result unit * MatrixClient)
    (sc : scope) (ev : event) (l : listener) : M unit :=
  let* ok := accepts l ev in
  if ok : bool then call apply_cb sc (l_callback l) (EventArg ev) else ret tt.

(** ** Joining and creating rooms *)

(** [MatrixError], raised by the api object before a request is made. *)
Definition MatrixError : exn := OtherError 1.

(** [MatrixClient.join_room].  [self.api.join_room] refuses an empty id or
    alias with [MatrixError]; [reply] is what the request gives otherwise, of
    which only the key ["room_id"] is read.  The result is the Room stored
    under the id. *)
Definition join_room (room_id_or_alias : string) (reply : result (option string))
  : M Room :=
  if decide (room_id_or_alias = "") then raise MatrixError
  else
    let* response := (λ c, {| res := reply; final := c; trace := [] |}) in
    let room_id := default room_id_or_alias response in
    _mkroom room_id >>
    get (λ c, default (new_Room room_id) (client_rooms c !! room_id)).

(** [MatrixClient.create_room]: [response["room_id"]] has to be there. *)
Definition create_room (reply : result (option string)) : M Room :=
  let* response := (λ c, {| res := reply; final := c; trace := [] |}) in
  let* room_id := getitem "room_id" response in
  _mkroom room_id >>
  get (λ c, default (new_Room room_id) (client_rooms c !! room_id)).

(** A batch with nothing in it but the token. *)
Definition empty_batch (tok : string) (td : option (list event)) : batch :=
  {| b_next_batch := tok; b_presence := []; b_invite := []; b_leave := [];
     b_join := []; b_to_device := td |}.

(** * The HTTP layer: [matrix_client.api.MatrixHttpApi]

    The requests [MatrixClient] makes go through [MatrixHttpApi._send], in
    [src/zpui_lib/libs/matrix_client/matrix_client/api.py].  The server is a
    script: the list of what the successive calls of [session.request] give.
    A call of [_send] gives its result, what it put on the wire and slept, in
    order, and the part of the script it did not read.  The model stops with
    [OutOfFuel] when [_send] asks for one reply more than the script has. *)

(** [ValueError] and [MatrixHttpLibError]. *)
Definition ValueError : exn := OtherError 2.
Definition MatrixHttpLibError : exn := OtherError 3.

Module Api.

Definition MATRIX_V2_API_PATH : string := "/_matrix/client/r0".

(** The values a query parameter takes. *)
Inductive pyval :=
  | PyNone
  | PyStr (s : string)
  | PyInt (z : Z).

(** The fields of the api object [_send] reads. *)
Record MatrixHttpApi := {
  _base_url : string;
  token : option string;
  identity : option string;
  validate_cert : bool;
  default_429_wait_ms : Z;
  use_authorization_header : bool
}.

(** [if s:] on a value that is a string or [None]. *)
Definition truthy (s : option string) : bool :=
  match s with
  | Some s => bool_decide (s ≠ "")
  | None => false
  end.

(** ['%s' % s] on a value that is a string or [None]. *)
Definition str (s : option string) : string := default "None" s.

Definition pyval_of (s : option string) : pyval :=
  match s with
  | Some s => PyStr s
  | None => PyNone
  end.

(** The ['error'] of the body of a response, as [_send] reads it: a string
    that [json.loads] refuses, or one it decodes to an object. *)
Inductive error_field :=
  | ErrorText
  | ErrorObject (retry_after_ms : option Z).

(** A body that is a JSON object: the two keys [_send] looks up in it, and
    the decoded object itself.  A ['retry_after_ms'] is a number. *)
Record json_body (J : Type) := {
  retry_after_ms : option Z;
  error : option error_field;
  value : J
}.
Arguments retry_after_ms {J} _.
Arguments error {J} _.
Arguments value {J} _.

(** What [session.request] gives: a [RequestException], or a response with
    its status code and its body; the body is [None] when it is not JSON and
    [response.json()] raises [ValueError]. *)
Inductive http_reply (J : Type) :=
  | RequestException
  | Response (status_code : Z) (json : option (json_body J)).
Arguments RequestException {J}.
Arguments Response {J} status_code json.

(** The [data] of a request: the content as it was given, or the string
    [json.dumps] made of it. *)
Inductive payload (C : Type) :=
  | Raw (content : C)
  | Dumped (s : string).
Arguments Raw {C} content.
Arguments Dumped {C} s.

(** The arguments of [session.request]. *)
Record request (C : Type) := {
  rq_method : string;
  rq_endpoint : string;
  rq_params : gmap string pyval;
  rq_data : option (payload C);
  rq_headers : gmap string string;
  rq_verify : bool
}.
Arguments rq_method {C} _.
Arguments rq_endpoint {C} _.
Arguments rq_params {C} _.
Arguments rq_data {C} _.
Arguments rq_headers {C} _.
Arguments rq_verify {C} _.

(** What [_send] does: a call of [session.request], or [sleep(ms / 1000)]. *)
Inductive wire (C : Type) :=
  | Sent (rq : request C)
  | SleepMs (ms : Z).
Arguments Sent {C} rq.
Arguments SleepMs {C} ms.

Section Send.

Context {C J : Type}.

(** [__version__] of the package, [str.upper] and [json.dumps]. *)
Variable __version__ : string.
Variable upper : string → string.
Variable dumps : C → string.

(** [_send] up to its [while] loop: the request it is going to make, or
    [MatrixError] for a method it does not support. *)
Definition _send_request (self : MatrixHttpApi) (method path : string)
    (content : option C) (query_params : gmap string pyval)
    (headers : gmap string string) (api_path : string) : result (request C) :=
  let headers :=
    if decide (is_Some (headers !! "User-Agent")) then headers
    else <["User-Agent" := "matrix-python-sdk/" +:+ __version__]> headers in
  let method := upper method in
  if decide (method ∈ ["GET"; "PUT"; "DELETE"; "POST"]) then
    let headers :=
      if decide (is_Some (headers !! "Content-Type")) then headers
      else <["Content-Type" := "application/json"]> headers in
    let headers :=
      if use_authorization_header self
      then <["Authorization" := "Bearer " +:+ str (token self)]> headers
      else headers in
    let query_params :=
      if use_authorization_header self then query_params
      else <["access_token" := pyval_of (token self)]> query_params in
    let query_params :=
      if truthy (identity self)
      then <["user_id" := pyval_of (identity self)]> query_params
      else query_params in
    let endpoint := _base_url self +:+ api_path +:+ path in
    let content :=
      if decide (headers !! "Content-Type" = Some "application/json")
      then (λ c, Dumped (dumps c)) <$> content
      else Raw <$> content in
    Return {| rq_method := method; rq_endpoint := endpoint;
              rq_params := query_params; rq_data := content;
              rq_headers := headers; rq_verify := validate_cert self |}
  else Raise MatrixError.

(** The wait a rate-limited response asks for, in milliseconds: the two
    nested [try] blocks of [_send].  A [KeyError] falls through to the next
    source; the [ValueError] of [json.loads] is not caught. *)
Definition waittime (default_ms : Z) (body : json_body J) : Z + exn :=
  match retry_after_ms body with
  | Some ms => inl ms
  | None =>
      match error body with
      | None => inl default_ms
      | Some ErrorText => inr ValueError
      | Some (ErrorObject (Some ms)) => inl ms
      | Some (ErrorObject None) => inl default_ms
      end
  end.

(** The [while True] loop of [_send] and what follows it.  [time.sleep]
    raises [ValueError] for a negative length. *)
Fixpoint request_loop (default_ms : Z) (rq : request C) (script : list (http_reply J))
  : result J * list (wire C) * list (http_reply J) :=
  match script with
  | [] => (OutOfFuel, [], [])
  | RequestException :: rest => (Raise MatrixHttpLibError, [Sent rq], rest)
  | Response status_code json :: rest =>
      if decide (status_code = 429) then
        match json with
        | None => (Raise ValueError, [Sent rq], rest)
        | Some body =>
            match waittime default_ms body with
            | inl ms =>
                if decide (ms < 0) then (Raise ValueError, [Sent rq], rest)
                else
                  let '(r, w, rest') := request_loop default_ms rq rest in
                  (r, Sent rq :: SleepMs ms :: w, rest')
            | inr e => (Raise e, [Sent rq], rest)
            end
        end
      else if decide (status_code < 200 ∨ status_code >= 300) then
        (Raise (MatrixRequestError status_code), [Sent rq], rest)
      else
        match json with
        | None => (Raise ValueError, [Sent rq], rest)
        | Some body => (Return (value body), [Sent rq], rest)
        end
  end.

(** [MatrixHttpApi._send]. *)
Definition _send (self : MatrixHttpApi) (method path : string)
    (content : option C) (query_params : gmap string pyval)
    (headers : gmap string string) (api_path : string)
    (script : list (http_reply J))
  : result J * list (wire C) * list (http_reply J) :=
  match _send_request self method path content query_params headers api_path with
  | Return rq => request_loop (default_429_wait_ms self) rq script
  | Raise e => (Raise e, [], script)
  | OutOfFuel => (OutOfFuel, [], script)
  end.

(** [MatrixHttpApi.sync]; [timeout_ms] is an integer, [full_state] a
    boolean or [None], [json.dumps(True)] is ["true"]. *)
Definition sync (self : MatrixHttpApi) (since : option string) (timeout_ms : Z)
    (filter : option string) (full_state : option bool)
    (set_presence : option string) (script : list (http_reply J))
  : result J * list (wire C) * list (http_reply J) :=
  let request : gmap string pyval := {["timeout" := PyInt timeout_ms]} in
  let request :=
    if truthy since then <["since" := pyval_of since]> request else request in
  let request :=
    if truthy filter then <["filter" := pyval_of filter]> request else request in
  let request :=
    match full_state with
    | Some true => <["full_state" := PyStr "true"]> request
    | _ => request
    end in
  let request :=
    if truthy set_presence
    then <["set_presence" := pyval_of set_presence]> request else request in
  _send self "GET" "/sync" None request ∅ MATRIX_V2_API_PATH script.

End Send.

(** [str.upper] on the letters of ASCII, where it is Python's. *)
Definition upper_ascii_letter (a : Ascii.ascii) : Ascii.ascii :=
  let n := Ascii.nat_of_ascii a in
  if ((97 <=? n) && (n <=? 122))%nat then Ascii.ascii_of_nat (n - 32) else a.

Fixpoint upper_ascii (s : string) : string :=
  match s with
  | EmptyString => EmptyString
  | String a s' => String (upper_ascii_letter a) (upper_ascii s')
  end.

End Api.

(** ** The reconciler with its request *)

Section OverHttp.

Context {C : Type}.
Variable apply_cb : callback → cb_args → MatrixClient → result unit * MatrixClient.
Variable __version__ : string.
Variable upper : string → string.
Variable dumps : C → string.

(** [MatrixClient._sync] from its first line on:
    [response = self.api.sync(self.sync_token, timeout_ms, filter=self.sync_filter)]
    and then the reconciliation of what the request gave. *)
Definition _sync_over_http (api : Api.MatrixHttpApi) (sync_filter : option string)
    (fuel : nat) (timeout_ms : Z) (script : list (Api.http_reply response))
    (c : MatrixClient)
  : outcome unit * list (Api.wire C) * list (Api.http_reply response) :=
  let '(reply, w, rest) :=
    Api.sync __version__ upper dumps api (sync_token c) timeout_ms sync_filter
             None None script in
  (_sync apply_cb fuel reply c, w, rest).

End OverHttp.

(** ** Reading the wire *)

(** The requests made, in order, without the sleeps between them. *)
Definition sent_requests {C} (w : list (Api.wire C)) : list (Api.request C) :=
  omap (λ a, match a with Api.Sent rq => Some rq | Api.SleepMs _ => None end) w.



(** What [_send] makes of a response that is not a rate limit. *)
Definition outcome_of {J} (status_code : Z) (json : option (Api.json_body J))
  : result J :=
  if decide (200 <= status_code < 300) then
    match json with
    | Some body => Return (Api.value body)
    | None => Raise ValueError
    end
  else Raise (MatrixRequestError status_code).

(** An api object and three responses for the examples. *)
Definition api_example : Api.MatrixHttpApi :=
  {| Api._base_url := "https://matrix.org"; Api.token := Some "secret";
     Api.identity := None; Api.validate_cert := true;
     Api.default_429_wait_ms := 5000; Api.use_authorization_header := true |}.

Definition slow_down {J} (v : J) : Api.http_reply J :=
  Api.Response 429 (Some {| Api.retry_after_ms := Some 100; Api.error := None;
                            Api.value := v |}).



Definition ok {J} (v : J) : Api.http_reply J :=
  Api.Response 200 (Some {| Api.retry_after_ms := None; Api.error := None;
                            Api.value := v |}).

(** * Properties *)

(** ** Records *)

Lemma with_listeners_id c : with_listeners (listeners c) c = c.
Proof. by destruct c. Qed.

Lemma with_ephemeral_listeners_id c :
  with_ephemeral_listeners (ephemeral_listeners c) c = c.
Proof. by destruct c. Qed.

(** ** Registries *)

Lemma client_L1_L2_listeners : listeners client_L1_L2 = [L1; L2].
Proof. reflexivity. Qed.

Section Registries.
Context {A : Type} (key : A → uuid).

(** Filtering out an id nobody carries changes nothing. *)
Lemma filter_absent_id (u : uuid) (ls : list A) :
  (∀ l, l ∈ ls → key l ≠ u) → filter (λ l, key l ≠ u) ls = ls.
Proof.
  induction ls as [|x ls IH]; intros Hfresh; [done|].
  rewrite filter_cons_True by (apply Hfresh; left).
  f_equal. apply IH. intros l Hl. apply Hfresh. by right.
Qed.

(** Appending an entry and filtering its fresh id out again is the identity. *)
Lemma filter_after_append (u : uuid) (x : A) (ls : list A) :
  key x = u → (∀ l, l ∈ ls → key l ≠ u) →
  filter (λ l, key l ≠ u) (ls ++ [x]) = ls.
Proof.
  intros Hx Hfresh. rewrite filter_app, filter_absent_id by done.
  rewrite filter_cons_False by (intros Hne; by apply Hne).
  by rewrite filter_nil, app_nil_r.
Qed.

(** What the filter drops is what carries the id. *)
Lemma filter_length_split (u : uuid) (ls : list A) :
  length ls =
  (length (filter (λ l, key l ≠ u) ls) + length (filter (λ l, key l = u) ls))%nat.
Proof.
  induction ls as [|x ls IH]; [done|].
  rewrite !filter_cons. destruct (decide (key x = u)) as [Heq|Hne].
  - rewrite decide_False by (intros Hne; by apply Hne). simpl. lia.
  - rewrite decide_True by done. simpl. lia.
Qed.
End Registries.

Lemma dict_pop_set_fresh {V} (u : uuid) (v : V) (d : list (uuid * V)) :
  u ∉ d.*1 → dict_pop u (dict_set u v d) = Some d.
Proof.
  induction d as [|[k w] d IH]; intros Hfresh; simpl.
  - by rewrite decide_True.
  - rewrite fmap_cons, not_elem_of_cons in Hfresh. destruct Hfresh as [Hne Hd].
    simpl in Hne. rewrite decide_False by done. simpl.
    rewrite decide_False by done. by rewrite IH.
Qed.

Lemma dict_pop_absent {V} (u : uuid) (d : list (uuid * V)) :
  u ∉ d.*1 → dict_pop u d = None.
Proof.
  induction d as [|[k w] d IH]; intros Hfresh; simpl; [done|].
  rewrite fmap_cons, not_elem_of_cons in Hfresh. destruct Hfresh as [Hne Hd].
  simpl in Hne. rewrite decide_False by done. by rewrite IH.
Qed.

Lemma dict_set_lookup {V} (u : uuid) (v : V) (d : list (uuid * V)) :
  (u, v) ∈ dict_set u v d.
Proof.
  induction d as [|[k w] d IH]; simpl; [left|].
  destruct (decide (k = u)); [left | by right].
Qed.

(** C10: adding a global listener under an id no entry carries and removing it
    by the returned id gives back the client as it was; and [remove_listener]
    keeps a sub-sequence of the list, in its order, in which nobody carries
    the id and from which only entries carrying the id are missing. *)
Theorem add_remove_listener_roundtrip (c : MatrixClient) (u : uuid)
    (cb : callback) (ty : option string) :
  (∀ l, l ∈ listeners c → uid l ≠ u) →
  remove_listener (add_listener u cb ty c).1 (add_listener u cb ty c).2 = c
  ∧ (∀ (v : uuid) (c' : MatrixClient),
        sublist (listeners (remove_listener v c')) (listeners c')
        ∧ (∀ l, l ∈ listeners (remove_listener v c') ↔ l ∈ listeners c' ∧ uid l ≠ v)
        ∧ length (listeners c') =
          (length (listeners (remove_listener v c'))
           + length (filter (λ l, uid l = v) (listeners c')))%nat
        ∧ remove_listener v c' = with_listeners (listeners (remove_listener v c')) c').
Proof.
  intros Hfresh. split.
  - unfold remove_listener, add_listener. simpl.
    rewrite (filter_after_append uid) by done.
    destruct c; reflexivity.
  - intros v c'. unfold remove_listener. simpl.
    split; [apply sublist_filter|].
    split; [intros l; rewrite list_elem_of_filter; tauto|].
    split; [apply (filter_length_split uid) | reflexivity].
Qed.

Lemma add_remove_listener_roundtrip_witness :
  remove_listener (add_listener 7%N 1%nat (Some "m.room.message") init_client).1
                  (add_listener 7%N 1%nat (Some "m.room.message") init_client).2
  = init_client.
Proof.
  apply (add_remove_listener_roundtrip init_client 7%N 1%nat (Some "m.room.message")).
  simpl. intros l Hl. by apply elem_of_nil in Hl.
Defined.

(** C3, as the code has it: the global and the ephemeral registry hand out the
    id of the new entry and un-register by id, doing nothing for an id that is
    not registered; the presence registry hands out an id under which the
    listener can be removed again; the invite and the leave registry append
    the callback and hand out nothing. *)
Theorem registries_add_remove (c : MatrixClient) (u : uuid) (cb : callback)
    (ty : option string) :
  (∀ l, l ∈ listeners c → uid l ≠ u) →
  (∀ l, l ∈ ephemeral_listeners c → uid l ≠ u) →
  u ∉ (presence_listeners c).*1 →
  ((add_listener u cb ty c).1 = u
   ∧ listeners (add_listener u cb ty c).2
     = listeners c ++ [{| uid := u; l_callback := cb; event_type := ty |}]
   ∧ remove_listener u c = c)
  ∧ ((add_ephemeral_listener u cb ty c).1 = u
     ∧ ephemeral_listeners (add_ephemeral_listener u cb ty c).2
       = ephemeral_listeners c ++ [{| uid := u; l_callback := cb; event_type := ty |}]
     ∧ remove_ephemeral_listener u c = c)
  ∧ ((add_presence_listener u cb c).1 = u
     ∧ (u, cb) ∈ presence_listeners (add_presence_listener u cb c).2
     ∧ remove_presence_listener u (add_presence_listener u cb c).2 = (Return tt, c))
  ∧ (add_invite_listener cb c = (None, with_invite_listeners (invite_listeners c ++ [cb]) c)
     ∧ add_leave_listener cb c = (None, with_left_listeners (left_listeners c ++ [cb]) c)).
Proof.
  intros Hg He Hp. repeat split.
  - unfold remove_listener. rewrite (filter_absent_id uid) by done.
    apply with_listeners_id.
  - unfold remove_ephemeral_listener. rewrite (filter_absent_id uid) by done.
    apply with_ephemeral_listeners_id.
  - simpl. apply dict_set_lookup.
  - unfold remove_presence_listener, add_presence_listener. simpl.
    rewrite dict_pop_set_fresh by done. f_equal. by destruct c.
Qed.

Lemma registries_add_remove_witness :
  remove_listener 7%N init_client = init_client
  ∧ remove_presence_listener 7%N (add_presence_listener 7%N 1%nat init_client).2
    = (Return tt, init_client).
Proof.
  assert (Hg : ∀ l : listener, l ∈ [] → uid l ≠ 7%N)
    by (intros l Hl; by apply elem_of_nil in Hl).
  assert (Hp : 7%N ∉ ([] : list (uuid * callback)).*1) by apply not_elem_of_nil.
  destruct (registries_add_remove init_client 7%N 1%nat None Hg Hg Hp)
    as ((_ & _ & Hglobal) & _ & (_ & _ & Hpresence) & _).
  split; [exact Hglobal | exact Hpresence].
Defined.

(** C3 as stated fails: the invite and the leave registry give no id, and the
    presence registry raises for an id that is not registered. *)
Lemma registries_not_uniform :
  ¬ (∃ u, (add_invite_listener 1%nat init_client).1 = Some u)
  ∧ ¬ (∃ u, (add_leave_listener 1%nat init_client).1 = Some u)
  ∧ remove_presence_listener 7%N init_client = (Raise (KeyErrorUid 7%N), init_client).
Proof.
  split; [|split].
  - intros [u Hu]. discriminate Hu.
  - intros [u Hu]. discriminate Hu.
  - reflexivity.
Qed.

(** ** Starting the worker *)

(** C4, as the code has it: [start_listener_thread] has no guard.  Whatever
    the state of the client, a call whose [thread.start()] succeeds records a
    new thread in [sync_thread], sets [should_listen] and starts that thread;
    afterwards the loop is Running. *)
Theorem start_listener_thread_always_starts (c : MatrixClient) (timeout_ms : Z)
    (exception_handler : option callback) :
  let t := {| th_timeout_ms := timeout_ms;
              th_exception_handler := exception_handler |} in
  let o := start_listener_thread true timeout_ms exception_handler c in
  res o = Return tt
  ∧ trace o = [ThreadStart t]
  ∧ sync_thread (final o) = Some t
  ∧ should_listen (final o) = true
  ∧ running (final o) = true.
Proof. by destruct c. Qed.

(** C4 as stated fails: a second call, made while the loop is Running, starts
    a second worker. *)
Lemma start_twice_starts_two_workers :
  let t := {| th_timeout_ms := 30000; th_exception_handler := None |} in
  let c1 := final (start_listener_thread true 30000 None init_client) in
  running c1 = true
  ∧ trace (start_listener_thread true 30000 None c1) = [ThreadStart t]
  ∧ trace ((start_listener_thread true 30000 None >>
            start_listener_thread true 30000 None) init_client)
    = [ThreadStart t; ThreadStart t].
Proof. repeat split. Qed.

(** ** Running computations *)

Lemma outcome_eta {A} (o : outcome A) :
  o = {| res := res o; final := final o; trace := trace o |}.
Proof. by destruct o. Qed.

Lemma bind_return_eq {A B} (m : M A) (k : A → M B) c a c1 t1 :
  m c = {| res := Return a; final := c1; trace := t1 |} →
  bind m k c
  = {| res := res (k a c1); final := final (k a c1); trace := t1 ++ trace (k a c1) |}.
Proof. intros Hm. unfold bind. by rewrite Hm. Qed.

Lemma try_except_raise_eq {A} (m : M A) (h : exn → M A) c e c1 t1 :
  m c = {| res := Raise e; final := c1; trace := t1 |} →
  try_except m h c
  = {| res := res (h e c1); final := final (h e c1); trace := t1 ++ trace (h e c1) |}.
Proof. intros Hm. unfold try_except. by rewrite Hm. Qed.

(** ** The poll loop under server-side failures *)

(** However many server-side failures follow one another, the loop sleeps
    for [bad_sync_timeout], the argument, each time: the doubled local
    [_bad_sync_timeout] never reaches [sleep]. *)
Lemma listen_loop_server_errors apply_cb (fuel : nat) (h : option callback)
    (bad_sync_timeout : Z) (codes : list Z) :
  Forall (λ code, code >= 500) codes →
  ∀ (_bad_sync_timeout : Z) (c : MatrixClient),
    should_listen c = true →
    listen_loop apply_cb fuel (map (λ code, Raise (MatrixRequestError code)) codes)
      h bad_sync_timeout _bad_sync_timeout c
    = {| res := OutOfFuel; final := c;
         trace := map (λ _, Sleep bad_sync_timeout) codes |}.
Proof.
  induction 1 as [|code codes Hcode _ IH]; intros cur c Hgo.
  - simpl. unfold bind, get, out_of_fuel. simpl. by rewrite Hgo.
  - simpl.
    erewrite bind_return_eq by reflexivity. rewrite Hgo.
    erewrite (bind_return_eq (try_except _ _)).
    2:{ erewrite try_except_raise_eq by reflexivity.
        cbv beta iota. case_decide; [reflexivity | done]. }
    rewrite IH by done. reflexivity.
Qed.

(** C2, the code at the input of the claim: base 5, ceiling 60, server-side
    failures only.  The waits are 5, 5, 5, ... and neither 10 nor 20 nor 60
    is ever slept. *)
Theorem listen_forever_sleeps_base apply_cb (fuel : nat) (n : nat) :
  trace (listen_forever apply_cb fuel
           (replicate n (Raise (MatrixRequestError 500))) None 5
           (with_bad_sync_timeout_limit 60 init_client))
  = replicate n (Sleep 5)
  ∧ trace (listen_forever apply_cb fuel
             (replicate 3 (Raise (MatrixRequestError 500))) None 5
             (with_bad_sync_timeout_limit 60 init_client))
    ≠ [Sleep 5; Sleep 10; Sleep 20].
Proof.
  assert (Hgen : ∀ k,
    trace (listen_forever apply_cb fuel
             (replicate k (Raise (MatrixRequestError 500))) None 5
             (with_bad_sync_timeout_limit 60 init_client))
    = replicate k (Sleep 5)).
  { intros k. unfold listen_forever, bind at 1, modify at 1. simpl.
    replace (replicate k (Raise (MatrixRequestError 500)))
      with (map (λ code : Z, @Raise response (MatrixRequestError code)) (replicate k 500))
      by (induction k; simpl; congruence).
    rewrite listen_loop_server_errors.
    - simpl. induction k; simpl; congruence.
    - apply Forall_replicate. lia.
    - reflexivity. }
  split; [apply Hgen|]. rewrite Hgen. discriminate.
Qed.

(** ** Rules for [triple] *)

Section Rules.

Variable apply_cb : callback → cb_args → MatrixClient → result unit * MatrixClient.

Lemma triple_ret {A} (P : MatrixClient → Prop) (a : A) : triple P (ret a) a [] P.
Proof. by intros c Hc. Qed.

Lemma triple_bind {A B} (P Q R : MatrixClient → Prop) (m : M A) (k : A → M B)
    (a : A) (b : B) (t1 t2 : list action) :
  triple P m a t1 Q → triple Q (k a) b t2 R → triple P (bind m k) b (t1 ++ t2) R.
Proof.
  intros Hm Hk c Hc. destruct (Hm c Hc) as (Hr & Ht & Hq).
  destruct (Hk _ Hq) as (Hr' & Ht' & Hq').
  rewrite (bind_return_eq m k c a (final (m c)) (trace (m c)))
    by (rewrite <- Hr; apply outcome_eta).
  simpl. by rewrite Hr', Ht, Ht'.
Qed.

Lemma triple_trace {A} (P Q : MatrixClient → Prop) (m : M A) (a : A)
    (t t' : list action) :
  t = t' → triple P m a t Q → triple P m a t' Q.
Proof. by intros ->. Qed.

Lemma triple_get {A} (P : MatrixClient → Prop) (f : MatrixClient → A) (a : A) :
  (∀ c, P c → f c = a) → triple P (get f) a [] P.
Proof. intros Hf c Hc. simpl. by rewrite (Hf c Hc). Qed.

Lemma triple_update (P Q : MatrixClient → Prop) (f : MatrixClient → MatrixClient)
    (a : action) :
  (∀ c, P c → Q (f c)) → triple P (update f a) tt [a] Q.
Proof. intros Hf c Hc. simpl. auto. Qed.

Lemma triple_getitem {A} (P : MatrixClient → Prop) (key : string) (x : A) :
  triple P (getitem key (Some x)) x [] P.
Proof. by intros c Hc. Qed.

Lemma triple_call c0 tok known sc cb args :
  well_behaved apply_cb →
  triple (st c0 tok known) (call apply_cb sc cb args) tt [Call sc cb args]
         (st c0 tok known).
Proof.
  intros Hwb c (Hl & Hp & Hi & Hv & He & Ht & Hd).
  destruct (Hwb cb args c) as (Hres & Hl' & Hp' & Hi' & Hv' & He' & Ht' & Hd').
  unfold call. simpl. split; [done|]. split; [done|].
  repeat split; congruence.
Qed.

Lemma triple_for_each {A} (P : MatrixClient → Prop) (xs : list A)
    (body : A → M unit) (t : A → list action) :
  (∀ x, x ∈ xs → triple P (body x) tt (t x) P) →
  triple P (for_each xs body) tt (flat_map t xs) P.
Proof.
  induction xs as [|x xs IH]; intros Hbody; simpl.
  - apply triple_ret.
  - eapply triple_bind.
    + apply Hbody. left.
    + apply IH. intros y Hy. apply Hbody. by right.
Qed.

Lemma triple_for_live {A} (P : MatrixClient → Prop) (registry : MatrixClient → list A)
    (L : list A) (body : A → M unit) (t : A → list action) (fuel : nat) :
  (∀ c, P c → registry c = L) →
  (∀ x, x ∈ L → triple P (body x) tt (t x) P) →
  ∀ i, (length L - i < fuel)%nat →
  triple P (for_live fuel registry i body) tt (flat_map t (drop i L)) P.
Proof.
  intros HL Hbody. induction fuel as [|fuel IH]; intros i Hfuel; [lia|].
  intros c Hc. simpl. rewrite (HL c Hc).
  destruct (L !! i) as [x|] eqn:Hx.
  - rewrite (drop_S _ _ _ Hx). simpl.
    apply lookup_lt_Some in Hx as Hlt.
    refine (triple_bind P P P _ _ tt tt _ _ _ _ c Hc).
    + apply Hbody. by eapply list_elem_of_lookup_2.
    + apply IH. lia.
  - rewrite drop_ge by (by apply lookup_ge_None). by simpl.
Qed.

Lemma triple_for_presence_values (P : MatrixClient → Prop)
    (PL : list (uuid * callback)) (body : callback → M unit)
    (t : callback → list action) :
  (∀ c, P c → presence_listeners c = PL) →
  (∀ cb, triple P (body cb) tt (t cb) P) →
  ∀ n, (n ≤ length PL)%nat →
  triple P (for_presence_values (length PL) n body) tt
         (flat_map (λ p, t p.2) (drop (length PL - n) PL)) P.
Proof.
  intros HPL Hbody. induction n as [|n IH]; intros Hn c Hc; simpl.
  - rewrite (HPL c Hc). rewrite decide_True by done.
    rewrite drop_ge by lia. by simpl.
  - rewrite (HPL c Hc). rewrite decide_True by done.
    destruct (PL !! (length PL - S n)%nat) as [[u cb]|] eqn:Hx.
    + rewrite (drop_S _ _ _ Hx). simpl.
      replace (S (length PL - S n)) with (length PL - n)%nat by lia.
      refine (triple_bind P P P _ _ tt tt _ _ _ _ c Hc).
      * apply Hbody.
      * apply IH. lia.
    + apply lookup_ge_None in Hx. lia.
Qed.

(** Mapping over the entries a filter keeps, written as a [flat_map]. *)
Lemma flat_map_filter {A B} (P : A → Prop) `{∀ x, Decision (P x)} (f : A → B)
    (l : list A) :
  flat_map (λ x, if decide (P x) then [f x] else []) l = map f (filter P l).
Proof.
  induction l as [|x l IH]; [done|]. simpl. rewrite filter_cons.
  destruct (decide (P x)); simpl; by rewrite IH.
Qed.

Lemma triple_accepts (P : MatrixClient → Prop) (l : listener) (ev : event) :
  is_Some (ev !! "type") →
  triple P (accepts l ev) (bool_decide (wants ev l)) [] P.
Proof.
  intros [T HT] c Hc. unfold accepts. rewrite HT.
  destruct (event_type l) as [ty|] eqn:Hty; simpl.
  - split; [|done]. f_equal. apply bool_decide_ext. unfold wants.
    rewrite Hty, HT. split; [intros ->; by right | intros [?|?]; congruence].
  - split; [|done]. f_equal. symmetry. apply bool_decide_eq_true. by left.
Qed.

Lemma triple_dispatch c0 tok known fuel sc (registry : MatrixClient → list listener)
    (L : list listener) (ev : event) :
  well_behaved apply_cb →
  is_Some (ev !! "type") →
  (∀ c, st c0 tok known c → registry c = L) →
  (length L < fuel)%nat →
  triple (st c0 tok known) (dispatch apply_cb fuel sc registry ev) tt
         (fan_out sc L ev) (st c0 tok known).
Proof.
  intros Hwb Hty HL Hfuel. unfold dispatch, fan_out.
  rewrite <- flat_map_filter.
  apply (triple_for_live (st c0 tok known) registry L _
           (λ l, if decide (wants ev l) then [Call sc (l_callback l) (EventArg ev)] else [])
           fuel HL) with (i := 0%nat); [|lia].
  intros l _.
  eapply triple_trace; [|eapply triple_bind; [by apply triple_accepts|]].
  - simpl. reflexivity.
  - destruct (decide (wants ev l)) as [Hw|Hw].
    + rewrite bool_decide_eq_true_2 by done. by apply triple_call.
    + rewrite bool_decide_eq_false_2 by done. apply triple_ret.
Qed.

Lemma flat_map_singleton {A B} (f : A → B) (l : list A) :
  flat_map (λ x, [f x]) l = map f l.
Proof. induction l as [|x l IH]; [done|]. simpl. by rewrite IH. Qed.

Lemma flat_map_fmap {A B C} (f : B → list C) (g : A → B) (l : list A) :
  flat_map f (map g l) = flat_map (λ x, f (g x)) l.
Proof. induction l as [|x l IH]; [done|]. simpl. by rewrite IH. Qed.

Lemma st_with_rooms c0 tok known known' (R : gmap string Room) c :
  st c0 tok known c → dom R = known' → st c0 tok known' (with_rooms R c).
Proof. intros (Hl & Hp & Hi & Hv & He & Ht & Hd) HR. by repeat split. Qed.

Lemma st_known c0 tok known rid c :
  st c0 tok known c →
  bool_decide (is_Some (client_rooms c !! rid)) = bool_decide (rid ∈ known).
Proof.
  intros (_ & _ & _ & _ & _ & _ & Hd). apply bool_decide_ext.
  rewrite <- Hd. symmetry. apply elem_of_dom.
Qed.

(** *** The phases of [_sync] on a well-formed batch *)

Lemma triple_sync_presence c0 tok known (resp : response) (pevs : list event) :
  well_behaved apply_cb →
  presence resp = Some {| events := Some pevs |} →
  triple (st c0 tok known) (sync_presence apply_cb resp) tt
         (presence_steps c0 pevs) (st c0 tok known).
Proof.
  intros Hwb Hpr. unfold sync_presence, presence_steps. rewrite Hpr.
  eapply triple_trace; cycle 1.
  { eapply triple_bind; [apply triple_getitem|].
    eapply triple_bind; [apply triple_getitem|]. simpl.
    apply (triple_for_each _ _ _
      (λ pu, map (λ p, Call Presence p.2 (EventArg pu)) (presence_listeners c0))).
    intros pu _. eapply triple_trace; cycle 1.
    { eapply triple_bind.
      - apply (triple_get _ _ (length (presence_listeners c0))).
        intros c Hc. destruct Hc as (_ & Hp & _). by rewrite Hp.
      - apply (triple_for_presence_values _ (presence_listeners c0) _
                 (λ cb, [Call Presence cb (EventArg pu)])); [|intros cb|lia].
        + intros c Hc. by destruct Hc as (_ & Hp & _).
        + by apply triple_call. }
    simpl. rewrite Nat.sub_diag. simpl. apply flat_map_singleton. }
  done.
Qed.

Lemma triple_sync_invite c0 tok known fuel (b : batch) :
  well_behaved apply_cb →
  (length (invite_listeners c0) < fuel)%nat →
  triple (st c0 tok known) (sync_invite apply_cb fuel (to_response b)) tt
         (invite_steps c0 (b_invite b)) (st c0 tok known).
Proof.
  intros Hwb Hfuel. unfold sync_invite, invite_steps, to_response.
  cbn [rooms invite].
  eapply triple_trace; cycle 1.
  { eapply triple_bind; [apply triple_getitem|].
    eapply triple_bind; [apply triple_getitem|]. simpl.
    apply (triple_for_each _ _ _
      (λ q, map (λ cb, Call Invite cb
                         (InviteArgs q.1 (default {| events := None |} (invite_state q.2))))
                (invite_listeners c0))).
    intros [rid ir] Hin. apply list_elem_of_fmap in Hin as [[rid' st'] [Heq _]].
    simpl in Heq. injection Heq as -> ->. simpl.
    rewrite <- flat_map_singleton.
    apply (triple_for_live (st c0 tok known) invite_listeners (invite_listeners c0) _
             (λ cb, [Call Invite cb (InviteArgs rid' st')]) fuel)
      with (i := 0%nat); [| |lia].
    - intros c Hc. by destruct Hc as (_ & _ & Hi & _).
    - intros cb _. eapply triple_trace; cycle 1.
      { eapply triple_bind;
          [apply (triple_getitem _ "invite_state") | by apply triple_call]. }
      done. }
  simpl. by rewrite flat_map_fmap.
Qed.

Lemma triple_leave_loop c0 tok fuel (lv : list (string * sync_room)) :
  well_behaved apply_cb →
  (length (left_listeners c0) < fuel)%nat →
  ∀ known,
    triple (st c0 tok known)
      (for_each lv (λ '(rid, left_room),
         for_live fuel left_listeners 0
           (λ cb, call apply_cb Leave cb (LeaveArgs rid left_room)) >>
         let* known := get (λ c, bool_decide (is_Some (client_rooms c !! rid))) in
         if known : bool
         then update (λ c, with_rooms (delete rid (client_rooms c)) c) (DelRoom rid)
         else ret tt))
      tt (leave_steps c0 known lv) (st c0 tok (rooms_after_leave known lv)).
Proof.
  intros Hwb Hfuel.
  induction lv as [|[rid left_room] lv IH]; intros known; simpl.
  - apply triple_ret.
  - rewrite app_assoc.
    eapply triple_bind; [|apply IH].
    eapply triple_bind.
    + rewrite <- flat_map_singleton.
      apply (triple_for_live (st c0 tok known) left_listeners (left_listeners c0) _
               (λ cb, [Call Leave cb (LeaveArgs rid left_room)]) fuel)
        with (i := 0%nat); [| |lia].
      * intros c Hc. by destruct Hc as (_ & _ & _ & Hv & _).
      * intros cb _. by apply triple_call.
    + assert (Hknown : triple (st c0 tok known)
                (get (λ c, bool_decide (is_Some (client_rooms c !! rid))))
                (bool_decide (rid ∈ known)) [] (st c0 tok known)).
      { apply triple_get. intros c Hc. by eapply st_known. }
      destruct (decide (rid ∈ known)) as [Hin|Hout].
      * apply (triple_bind _ _ _ _ _ _ _ [] _ Hknown).
        rewrite bool_decide_eq_true_2 by done.
        apply triple_update. intros c Hc.
        eapply st_with_rooms; [done|]. rewrite dom_delete_L.
        by destruct Hc as (_ & _ & _ & _ & _ & _ & ->).
      * apply (triple_bind _ _ _ _ _ _ _ [] [] Hknown).
        rewrite bool_decide_eq_false_2 by done.
        intros c Hc. simpl. split; [done|]. split; [reflexivity|].
        destruct Hc as (Hl & Hp & Hi & Hv & He & Ht & Hd).
        repeat split; [done..|]. rewrite Hd. symmetry.
        apply difference_disjoint_L. by apply disjoint_singleton_r.
Qed.

Lemma triple_sync_leave c0 tok fuel (b : batch) :
  well_behaved apply_cb →
  (length (left_listeners c0) < fuel)%nat →
  ∀ known,
    triple (st c0 tok known) (sync_leave apply_cb fuel (to_response b)) tt
           (leave_steps c0 known (b_leave b))
           (st c0 tok (rooms_after_leave known (b_leave b))).
Proof.
  intros Hwb Hfuel known. unfold sync_leave, to_response.
  cbn [rooms leave].
  eapply triple_trace; cycle 1.
  { eapply triple_bind; [apply triple_getitem|].
    eapply triple_bind; [apply triple_getitem|].
    by apply triple_leave_loop. }
  done.
Qed.

Lemma triple_sync_to_device (P : MatrixClient → Prop) (b : batch) :
  triple P (sync_to_device (to_response b)) tt [] P.
Proof.
  unfold sync_to_device. simpl. destruct (b_to_device b); simpl; [|apply triple_ret].
  by intros c Hc.
Qed.

Lemma typed_in_room (rid : string) (ev : event) :
  is_Some (ev !! "type") → is_Some (in_room rid ev !! "type").
Proof. intros Hty. unfold in_room. by rewrite lookup_insert_ne. Qed.

Lemma triple_on_room c0 tok known rid (f : Room → Room) (a : action) :
  triple (st c0 tok known) (on_room rid f a) tt [a] (st c0 tok known).
Proof.
  apply triple_update. intros c Hc. eapply st_with_rooms; [done|].
  rewrite dom_alter_L. by destruct Hc as (_ & _ & _ & _ & _ & _ & ->).
Qed.

Lemma triple_sync_joined_room c0 tok known fuel rid (jr : joined_room) :
  well_behaved apply_cb →
  (length (listeners c0) < fuel)%nat →
  (length (ephemeral_listeners c0) < fuel)%nat →
  Forall (λ ev : event, is_Some (ev !! "type")) (j_timeline jr) →
  Forall (λ ev : event, is_Some (ev !! "type")) (j_ephemeral jr) →
  triple (st c0 tok known)
         (sync_joined_room apply_cb fuel rid (to_sync_room jr)) tt
         (joined_room_steps c0 known rid jr)
         (st c0 tok ({[rid]} ∪ known)).
Proof.
  intros Hwb Hfg Hfe Htl Hep.
  unfold sync_joined_room, joined_room_steps, to_sync_room.
  cbn [sr_timeline sr_state sr_ephemeral tl_prev_batch tl_events events].
  assert (Hknown : triple (st c0 tok known)
            (get (λ c, bool_decide (is_Some (client_rooms c !! rid))))
            (bool_decide (rid ∈ known)) [] (st c0 tok known)).
  { apply triple_get. intros c Hc. by eapply st_known. }
  apply (triple_bind _ _ _ _ _ _ _ [] _ Hknown).
  set (P' := st c0 tok ({[rid]} ∪ known)).
  apply (triple_bind _ P' _ _ _ tt).
  { destruct (decide (rid ∈ known)) as [Hin|Hout].
    - rewrite bool_decide_eq_true_2 by done. intros c Hc. simpl.
      split; [done|]. split; [done|].
      destruct Hc as (Hl & Hp & Hi & Hv & He & Ht & Hd).
      repeat split; [done..|]. rewrite Hd. symmetry.
      apply subseteq_union_1_L. by apply singleton_subseteq_l.
    - rewrite bool_decide_eq_false_2 by done. unfold _mkroom.
      apply triple_update. intros c Hc.
      eapply st_with_rooms; [done|]. rewrite dom_insert_L.
      by destruct Hc as (_ & _ & _ & _ & _ & _ & ->). }
  apply (triple_bind _ _ _ _ _ _ _ [] _ (triple_getitem P' "timeline" _)).
  apply (triple_bind _ _ _ _ _ _ _ [] _ (triple_getitem P' "prev_batch" _)).
  apply (triple_bind _ P' _ _ _ tt tt [SetPrevBatch rid (j_prev_batch jr)]);
    [apply triple_on_room|].
  apply (triple_bind _ _ _ _ _ _ _ [] _ (triple_getitem P' "state" _)).
  apply (triple_bind _ _ _ _ _ _ _ [] _ (triple_getitem P' "events" _)).
  apply (triple_bind _ P' _ _ _ tt).
  { rewrite <- flat_map_singleton.
    apply (triple_for_each P' _ _ (λ ev, [ProcessStateEvent rid (in_room rid ev)])).
    intros ev _. apply triple_on_room. }
  apply (triple_bind _ _ _ _ _ _ _ [] _ (triple_getitem P' "timeline" _)).
  apply (triple_bind _ _ _ _ _ _ _ [] _ (triple_getitem P' "events" _)).
  apply (triple_bind _ P' _ _ _ tt).
  { apply (triple_for_each P' _ _
             (λ ev, PutEvent rid (in_room rid ev)
                    :: fan_out Global (listeners c0) (in_room rid ev))).
    intros ev Hev.
    apply (triple_bind P' P' P' _ _ tt tt [PutEvent rid (in_room rid ev)]
             (fan_out Global (listeners c0) (in_room rid ev))).
    - apply triple_on_room.
    - apply triple_dispatch; [done| | |done].
      + apply typed_in_room. by eapply (proj1 (Forall_forall _ _) Htl).
      + intros c Hc. by destruct Hc as (Hl & _). }
  apply (triple_bind _ _ _ _ _ _ _ [] _ (triple_getitem P' "ephemeral" _)).
  apply (triple_bind _ _ _ _ _ _ _ [] _ (triple_getitem P' "events" _)).
  apply (triple_for_each P' _ _
           (λ ev, PutEphemeralEvent rid (in_room rid ev)
                  :: fan_out Ephemeral (ephemeral_listeners c0) (in_room rid ev))).
  intros ev Hev.
  apply (triple_bind P' P' P' _ _ tt tt [PutEphemeralEvent rid (in_room rid ev)]
           (fan_out Ephemeral (ephemeral_listeners c0) (in_room rid ev))).
  - apply triple_on_room.
  - apply triple_dispatch; [done| | |done].
    + apply typed_in_room. by eapply (proj1 (Forall_forall _ _) Hep).
    + intros c Hc. by destruct Hc as (_ & _ & _ & _ & He & _).
Qed.

Lemma triple_join_loop c0 tok fuel (jn : list (string * joined_room)) :
  well_behaved apply_cb →
  (length (listeners c0) < fuel)%nat →
  (length (ephemeral_listeners c0) < fuel)%nat →
  Forall (λ p, Forall (λ ev : event, is_Some (ev !! "type")) (j_timeline p.2)
               ∧ Forall (λ ev : event, is_Some (ev !! "type")) (j_ephemeral p.2)) jn →
  ∀ known,
    triple (st c0 tok known)
      (for_each (map (λ p, (p.1, to_sync_room p.2)) jn)
         (λ '(rid, sr), sync_joined_room apply_cb fuel rid sr))
      tt (join_steps c0 known jn) (st c0 tok (rooms_after_join known jn)).
Proof.
  intros Hwb Hfg Hfe. induction 1 as [|[rid jr] jn [Htl Hep] _ IH]; intros known; simpl.
  - apply triple_ret.
  - eapply triple_bind; [|apply IH].
    by apply triple_sync_joined_room.
Qed.

Lemma triple_sync c0 tok0 known fuel (b : batch) :
  well_behaved apply_cb →
  typed_events b →
  (registry_bound c0 < fuel)%nat →
  triple (st c0 tok0 known) (_sync apply_cb fuel (Return (to_response b))) tt
    ([SetSyncToken (b_next_batch b)]
     ++ presence_steps c0 (b_presence b)
     ++ invite_steps c0 (b_invite b)
     ++ leave_steps c0 known (b_leave b)
     ++ join_steps c0 (rooms_after_leave known (b_leave b)) (b_join b))
    (st c0 (Some (b_next_batch b))
        (rooms_after_join (rooms_after_leave known (b_leave b)) (b_join b))).
Proof.
  intros Hwb Hty Hfuel. unfold registry_bound in Hfuel. unfold _sync.
  apply (triple_bind _ _ _ _ _ _ _ [] _ (triple_ret (st c0 tok0 known) (to_response b))).
  apply (triple_bind _ _ _ _ _ _ _ [] _
           (triple_getitem (st c0 tok0 known) "next_batch" (b_next_batch b))).
  set (tok := Some (b_next_batch b)).
  apply (triple_bind _ (st c0 tok known) _ _ _ tt tt [SetSyncToken (b_next_batch b)]).
  { apply triple_update. intros c (Hl & Hp & Hi & Hv & He & Ht & Hd).
    by repeat split. }
  eapply triple_bind; [by apply triple_sync_presence|].
  eapply triple_bind; [apply triple_sync_invite; [done|lia]|].
  eapply triple_bind; [apply triple_sync_leave; [done|lia]|].
  apply (triple_bind _ _ _ _ _ _ _ [] _ (triple_sync_to_device _ b)).
  unfold sync_join, to_response. cbn [rooms join].
  apply (triple_bind _ _ _ _ _ _ _ [] _ (triple_getitem _ "rooms" _)).
  apply (triple_bind _ _ _ _ _ _ _ [] _ (triple_getitem _ "join" _)).
  apply triple_join_loop; [done|lia|lia|done].
Qed.

End Rules.

Lemma st_refl c : st c (sync_token c) (dom (client_rooms c)) c.
Proof. by repeat split. Qed.

Lemma well_behaved_observers : well_behaved observers.
Proof. intros cb args c. split; [reflexivity | apply st_refl]. Qed.



(** ** Left rooms and active rooms *)




(** ** A batch without "rooms" *)

(** [m], started in a state of [P], raises [e] after performing [t] and
    reaching a state of [Q]. *)
Lemma raise_after {A B} (P Q R : MatrixClient → Prop) (m : M A) (k : A → M B)
    (a : A) (e : exn) (t1 t2 : list action) :
  triple P m a t1 Q →
  (∀ c, Q c → res (k a c) = Raise e ∧ trace (k a c) = t2 ∧ R (final (k a c))) →
  ∀ c, P c →
    res (bind m k c) = Raise e ∧ trace (bind m k c) = t1 ++ t2
    ∧ R (final (bind m k c)).
Proof.
  intros Hm Hk c Hc. destruct (Hm c Hc) as (Hr & Ht & Hq).
  destruct (Hk _ Hq) as (Hr' & Ht' & Hq').
  rewrite (bind_return_eq m k c a (final (m c)) (trace (m c)))
    by (rewrite <- Hr; apply outcome_eta).
  simpl. by rewrite Hr', Ht, Ht'.
Qed.

(** C1, as the code has it.  A failed request and a batch without
    "next_batch" change nothing and reach no listener.  A batch without
    "rooms" is not rejected as a whole: with callbacks that return and leave
    registries, token and rooms alone, [_sync] first stores the batch's token
    and hands every presence update to every presence listener, and only then
    raises [KeyError("rooms")]; no other listener is called and the set of
    active rooms is as before. *)
Theorem missing_rooms_not_atomic apply_cb (fuel : nat) (resp : response)
    (c : MatrixClient) (tok : string) (pevs : list event) :
  well_behaved apply_cb →
  next_batch resp = Some tok →
  presence resp = Some {| events := Some pevs |} →
  rooms resp = None →
  let o := _sync apply_cb fuel (Return resp) c in
  (res o = Raise (KeyError "rooms")
   ∧ trace o = SetSyncToken tok :: presence_steps c pevs
   ∧ sync_token (final o) = Some tok
   ∧ dom (client_rooms (final o)) = dom (client_rooms c))
  ∧ (∀ e, _sync apply_cb fuel (Raise e) c
          = {| res := Raise e; final := c; trace := [] |})
  ∧ (∀ resp', next_batch resp' = None →
       _sync apply_cb fuel (Return resp') c
       = {| res := Raise (KeyError "next_batch"); final := c; trace := [] |}).
Proof.
  intros Hwb Htok Hpr Hrooms o. subst o. split; [|split].
  - set (known := dom (client_rooms c)).
    set (P0 := st c (sync_token c) known).
    set (P1 := st c (Some tok) known).
    assert (Hgoal :
      res (_sync apply_cb fuel (Return resp) c) = Raise (KeyError "rooms")
      ∧ trace (_sync apply_cb fuel (Return resp) c)
        = [] ++ [] ++ [SetSyncToken tok] ++ presence_steps c pevs ++ []
      ∧ P1 (final (_sync apply_cb fuel (Return resp) c))).
    { unfold _sync.
      refine (raise_after P0 P0 P1 _ _ resp _ [] _ (triple_ret P0 resp) _ c (st_refl c)).
      rewrite Htok.
      refine (raise_after P0 P0 P1 _ _ tok _ [] _ (triple_getitem P0 "next_batch" tok) _).
      refine (raise_after P0 P1 P1 _ _ tt _ [SetSyncToken tok] _ _ _).
      { apply triple_update. intros c' (Hl & Hp & Hi & Hv & He & Ht & Hd).
        by repeat split. }
      refine (raise_after P1 P1 P1 _ _ tt _ (presence_steps c pevs) []
                (triple_sync_presence apply_cb c (Some tok) known resp pevs Hwb Hpr) _).
      intros c' Hc'. unfold sync_invite. rewrite Hrooms. by simpl. }
    destruct Hgoal as (Hres & Htr & Hst).
    split; [exact Hres|]. split; [by rewrite Htr, app_nil_r|].
    by destruct Hst as (_ & _ & _ & _ & _ & Ht & Hd).
  - intros e. reflexivity.
  - intros resp' Hnone. unfold _sync.
    erewrite bind_return_eq by reflexivity. rewrite Hnone. reflexivity.
Qed.

Lemma missing_rooms_not_atomic_witness :
  res (_sync observers 1 (Return response_without_rooms) client_s1)
  = Raise (KeyError "rooms")
  ∧ sync_token (final (_sync observers 1 (Return response_without_rooms) client_s1))
    = Some "s2".
Proof.
  destruct (missing_rooms_not_atomic observers 1 response_without_rooms client_s1
              "s2" [ev_A] well_behaved_observers eq_refl eq_refl eq_refl)
    as ((Hres & _ & Htok & _) & _).
  split; [exact Hres | exact Htok].
Defined.

(** C1 as stated fails: for a batch without "rooms" the call raises, and yet
    the token has moved from "s1" to "s2" and the presence listener has been
    called. *)
Lemma missing_rooms_commits_token_and_presence :
  let o := _sync observers 1 (Return response_without_rooms) client_s1 in
  res o = Raise (KeyError "rooms")
  ∧ sync_token client_s1 = Some "s1"
  ∧ sync_token (final o) = Some "s2"
  ∧ trace o = [SetSyncToken "s2"; Call Presence 0%nat (EventArg ev_A)].
Proof. repeat split. Qed.

(** ** Every event is handed over with its room id *)

Section Emits.

Variable apply_cb : callback → cb_args → MatrixClient → result unit * MatrixClient.
Variable P : action → Prop.

Lemma emits_silent {A} (m : M A) : (∀ c, trace (m c) = []) → emits P m.
Proof. intros Hm c. rewrite Hm. constructor. Qed.

Lemma emits_getitem {A} (key : string) (field : option A) :
  emits P (getitem key field).
Proof. intros c. destruct field; constructor. Qed.

Lemma emits_bind {A B} (m : M A) (k : A → M B) :
  emits P m → (∀ a, emits P (k a)) → emits P (bind m k).
Proof.
  intros Hm Hk c. unfold bind. specialize (Hm c).
  destruct (res (m c)) as [a| |]; simpl; [|done..].
  apply Forall_app. split; [done | apply Hk].
Qed.

Lemma emits_getitem_bind {A B} (key : string) (field : option A) (k : A → M B) :
  (∀ x, field = Some x → emits P (k x)) → emits P (bind (getitem key field) k).
Proof.
  intros Hk c. destruct field as [x|]; unfold bind; simpl; [|constructor].
  by apply Hk.
Qed.


Lemma emits_update (f : MatrixClient → MatrixClient) (a : action) :
  P a → emits P (update f a).
Proof. intros Ha c. simpl. by repeat constructor. Qed.

Lemma emits_call sc cb args : P (Call sc cb args) → emits P (call apply_cb sc cb args).
Proof. intros Ha c. simpl. by repeat constructor. Qed.

Lemma emits_for_each {A} (xs : list A) (body : A → M unit) :
  (∀ x, x ∈ xs → emits P (body x)) → emits P (for_each xs body).
Proof.
  induction xs as [|x xs IH]; intros Hbody; simpl.
  - by apply emits_silent.
  - apply emits_bind; [apply Hbody; left|].
    intros _. apply IH. intros y Hy. apply Hbody. by right.
Qed.

Lemma emits_for_live {A} (registry : MatrixClient → list A) (body : A → M unit) :
  (∀ x, emits P (body x)) → ∀ fuel i, emits P (for_live fuel registry i body).
Proof.
  intros Hbody. induction fuel as [|fuel IH]; intros i c; simpl; [constructor|].
  destruct (registry c !! i) as [x|]; [|constructor].
  apply (emits_bind (body x) (λ _, for_live fuel registry (S i) body));
    [apply Hbody | intros _; apply IH].
Qed.

Lemma emits_for_presence_values (size0 : nat) (body : callback → M unit) :
  (∀ cb, emits P (body cb)) → ∀ n, emits P (for_presence_values size0 n body).
Proof.
  intros Hbody. induction n as [|n IH]; intros c; simpl.
  - case_decide; constructor.
  - case_decide; [|constructor].
    destruct (presence_listeners c !! (size0 - S n)%nat) as [[u cb]|]; [|constructor].
    apply (emits_bind (body cb) (λ _, for_presence_values size0 n body));
      [apply Hbody | intros _; apply IH].
Qed.

Lemma emits_accepts l ev : emits P (accepts l ev).
Proof.
  unfold accepts. destruct (event_type l); [|by apply emits_silent].
  apply emits_getitem_bind. intros t _. by apply emits_silent.
Qed.

Lemma emits_dispatch fuel sc (registry : MatrixClient → list listener) ev :
  (∀ cb, P (Call sc cb (EventArg ev))) →
  emits P (dispatch apply_cb fuel sc registry ev).
Proof.
  intros Hcall. unfold dispatch. apply emits_for_live. intros l.
  apply emits_bind; [apply emits_accepts|].
  intros [|]; [by apply emits_call | by apply emits_silent].
Qed.

End Emits.




(** ** The order of the steps, whatever the callbacks do *)

Section Order.

Variable apply_cb : callback → cb_args → MatrixClient → result unit * MatrixClient.
Variable key : action → nat.

Lemma in_order_app (t1 t2 : list action) :
  in_order key t1 → in_order key t2 →
  (∀ a b, a ∈ t1 → b ∈ t2 → (key a ≤ key b)%nat) →
  in_order key (t1 ++ t2).
Proof.
  induction t1 as [|a t1 IH]; simpl; intros H1 H2 Hle; [done|].
  destruct H1 as [Hall H1]. split.
  - apply Forall_app. split; [done|].
    apply Forall_forall. intros b Hb. apply Hle; [left | done].
  - apply IH; [done..|]. intros x y Hx Hy. apply Hle; [by right | done].
Qed.

Lemma in_order_const (p : nat) (t : list action) :
  Forall (λ a, key a = p) t → in_order key t.
Proof.
  induction 1 as [|a t Ha Ht IH]; simpl; [done|]. split; [|done].
  eapply Forall_impl; [exact Ht|]. intros b Hb. simpl in Hb. lia.
Qed.

Lemma steps_within_silent {A} (lo hi : nat) (m : M A) :
  (∀ c, trace (m c) = []) → steps_within key lo hi m.
Proof. intros Hm c. rewrite Hm. by split. Qed.

Lemma steps_within_const {A} (p : nat) (m : M A) :
  emits (λ a, key a = p) m → steps_within key p p m.
Proof.
  intros Hm c. split; [by eapply in_order_const|].
  eapply Forall_impl; [apply Hm|]. intros a Ha. simpl in Ha. lia.
Qed.

Lemma steps_within_weaken {A} (lo hi lo' hi' : nat) (m : M A) :
  (lo' ≤ lo)%nat → (hi ≤ hi')%nat →
  steps_within key lo hi m → steps_within key lo' hi' m.
Proof.
  intros Hlo Hhi Hm c. destruct (Hm c) as [Ho Hr]. split; [done|].
  eapply Forall_impl; [exact Hr|]. intros a Ha. simpl in Ha. lia.
Qed.

Lemma steps_within_bind {A B} (lo mid hi : nat) (m : M A) (k : A → M B) :
  (lo ≤ mid)%nat → (mid ≤ hi)%nat →
  steps_within key lo mid m → (∀ a, steps_within key mid hi (k a)) →
  steps_within key lo hi (bind m k).
Proof.
  intros Hlo Hhi Hm Hk c. unfold bind. destruct (Hm c) as [Ho Hr].
  assert (Hr' : Forall (λ a, (lo ≤ key a ≤ hi)%nat) (trace (m c))).
  { eapply Forall_impl; [exact Hr|]. intros a Ha. simpl in Ha. lia. }
  destruct (res (m c)) as [a| |]; simpl; [|done..].
  destruct (Hk a (final (m c))) as [Ho2 Hr2]. split.
  - apply in_order_app; [done..|]. intros x y Hx Hy.
    pose proof (proj1 (Forall_forall _ _) Hr x Hx) as Hx'.
    pose proof (proj1 (Forall_forall _ _) Hr2 y Hy) as Hy'.
    simpl in Hx', Hy'. lia.
  - apply Forall_app. split; [done|].
    eapply Forall_impl; [exact Hr2|]. intros y Hy. simpl in Hy. lia.
Qed.

Lemma steps_within_for_each {A} (p : nat) (xs : list A) (body : A → M unit) :
  (∀ x, emits (λ a, key a = p) (body x)) →
  steps_within key p p (for_each xs body).
Proof.
  intros Hbody. apply steps_within_const. apply emits_for_each. auto.
Qed.

End Order.

Lemma emits_sync_presence_step apply_cb (resp : response) :
  emits (λ a, step_of a = 2%nat) (sync_presence apply_cb resp).
Proof.
  unfold sync_presence.
  apply emits_bind; [apply emits_getitem|]. intros pr.
  apply emits_bind; [apply emits_getitem|]. intros pevs.
  apply emits_for_each. intros pu _.
  apply emits_bind; [by apply emits_silent|]. intros size0.
  apply emits_for_presence_values. intros cb. by apply emits_call.
Qed.

Lemma emits_sync_invite_step apply_cb fuel (resp : response) :
  emits (λ a, step_of a = 3%nat) (sync_invite apply_cb fuel resp).
Proof.
  unfold sync_invite.
  apply emits_bind; [apply emits_getitem|]. intros rs.
  apply emits_bind; [apply emits_getitem|]. intros inv.
  apply emits_for_each. intros [rid ir] _.
  apply emits_for_live. intros cb.
  apply emits_bind; [apply emits_getitem|]. intros ist. by apply emits_call.
Qed.

Lemma emits_sync_leave_step apply_cb fuel (resp : response) :
  emits (λ a, step_of a = 4%nat) (sync_leave apply_cb fuel resp).
Proof.
  unfold sync_leave.
  apply emits_bind; [apply emits_getitem|]. intros rs.
  apply emits_bind; [apply emits_getitem|]. intros lv.
  apply emits_for_each. intros [rid left_room] _.
  apply emits_bind.
  { apply emits_for_live. intros cb. by apply emits_call. }
  intros _. apply emits_bind; [by apply emits_silent|].
  intros [|]; [by apply emits_update | by apply emits_silent].
Qed.

Lemma silent_getitem {A} (k : string) (field : option A) c :
  trace (getitem k field c) = [].
Proof. by destruct field. Qed.

(** A subscript of the response, which has no effect, in front of steps
    from [lo] to [hi]. *)
Ltac skip_getitem lo hi :=
  apply (steps_within_bind _ lo lo hi);
  [lia | lia | apply steps_within_silent, silent_getitem | intros ?].

(** Steps of key [mid] in front of steps from [mid] to [hi]. *)
Ltac then_steps lo mid hi :=
  apply (steps_within_bind _ lo mid hi);
  [lia | lia | apply (steps_within_weaken _ mid mid); [lia | lia |] | intros _].

(** The sub-steps of one joined room come in their order. *)
Lemma steps_within_sync_joined_room apply_cb fuel rid (sr : sync_room) :
  steps_within substep_of 1 5 (sync_joined_room apply_cb fuel rid sr).
Proof.
  unfold sync_joined_room.
  apply (steps_within_bind _ 1 1 5); [lia | lia | by apply steps_within_silent |].
  intros known.
  then_steps 1%nat 1%nat 5%nat.
  { destruct known; [by apply steps_within_silent|].
    apply steps_within_const. by apply emits_update. }
  skip_getitem 1%nat 5%nat. skip_getitem 1%nat 5%nat.
  then_steps 1%nat 2%nat 5%nat.
  { apply steps_within_const. by apply emits_update. }
  skip_getitem 2%nat 5%nat. skip_getitem 2%nat 5%nat.
  then_steps 2%nat 3%nat 5%nat.
  { apply steps_within_for_each. intros ev. by apply emits_update. }
  skip_getitem 3%nat 5%nat. skip_getitem 3%nat 5%nat.
  then_steps 3%nat 4%nat 5%nat.
  { apply steps_within_for_each. intros ev.
    apply emits_bind; [by apply emits_update|]. intros _.
    by apply emits_dispatch. }
  skip_getitem 4%nat 5%nat. skip_getitem 4%nat 5%nat.
  apply (steps_within_weaken _ 5 5); [lia | lia |].
  apply steps_within_for_each. intros ev.
  apply emits_bind; [by apply emits_update|]. intros _.
  by apply emits_dispatch.
Qed.

Lemma emits_sync_join_step apply_cb fuel (resp : response) :
  emits (λ a, step_of a = 5%nat) (sync_join apply_cb fuel resp).
Proof.
  unfold sync_join.
  apply emits_bind; [apply emits_getitem|]. intros rs.
  apply emits_bind; [apply emits_getitem|]. intros jn.
  apply emits_for_each. intros [rid sr] _. unfold sync_joined_room.
  apply emits_bind; [by apply emits_silent|]. intros known.
  apply emits_bind.
  { destruct known; [by apply emits_silent | by apply emits_update]. }
  intros _. apply emits_bind; [apply emits_getitem|]. intros tl.
  apply emits_bind; [apply emits_getitem|]. intros pb.
  apply emits_bind; [by apply emits_update|]. intros _.
  apply emits_bind; [apply emits_getitem|]. intros sec.
  apply emits_bind; [apply emits_getitem|]. intros sevs.
  apply emits_bind.
  { apply emits_for_each. intros ev _. by apply emits_update. }
  intros _. apply emits_bind; [apply emits_getitem|]. intros tl'.
  apply emits_bind; [apply emits_getitem|]. intros tevs.
  apply emits_bind.
  { apply emits_for_each. intros ev _.
    apply emits_bind; [by apply emits_update|]. intros _. by apply emits_dispatch. }
  intros _. apply emits_bind; [apply emits_getitem|]. intros ep.
  apply emits_bind; [apply emits_getitem|]. intros eevs.
  apply emits_for_each. intros ev _.
  apply emits_bind; [by apply emits_update|]. intros _. by apply emits_dispatch.
Qed.

(** The five steps of [_sync] come in their order. *)
Lemma steps_within_sync apply_cb fuel (reply : result response) :
  steps_within step_of 1 5 (_sync apply_cb fuel reply).
Proof.
  unfold _sync.
  apply (steps_within_bind _ 1 1 5); [lia | lia | by apply steps_within_silent |].
  intros resp.
  skip_getitem 1%nat 5%nat.
  then_steps 1%nat 1%nat 5%nat.
  { apply steps_within_const. by apply emits_update. }
  then_steps 1%nat 2%nat 5%nat.
  { apply steps_within_const, emits_sync_presence_step. }
  then_steps 2%nat 3%nat 5%nat.
  { apply steps_within_const, emits_sync_invite_step. }
  then_steps 3%nat 4%nat 5%nat.
  { apply steps_within_const, emits_sync_leave_step. }
  apply (steps_within_bind _ 4 4 5); [lia | lia | |].
  { apply steps_within_silent. intros c. unfold sync_to_device.
    destruct (to_device resp) as [td|]; [|done].
    unfold bind. by destruct (events td). }
  intros _.
  apply (steps_within_weaken _ 5 5); [lia | lia |].
  apply steps_within_const, emits_sync_join_step.
Qed.

(** ** Who is called, and in which order *)

Lemma omap_flat_map {A B C} (f : B → option C) (g : A → list B) (l : list A) :
  omap f (flat_map g l) = flat_map (λ x, omap f (g x)) l.
Proof. induction l as [|x l IH]; [done|]. simpl. by rewrite omap_app, IH. Qed.

Lemma omap_map_none {A B C} (f : B → option C) (g : A → B) (l : list A) :
  (∀ x, f (g x) = None) → omap f (map g l) = [].
Proof. intros Hf. induction l as [|x l IH]; [done|]. simpl. by rewrite Hf. Qed.

Lemma omap_map_some {A B C} (f : B → option C) (g : A → B) (h : A → C) (l : list A) :
  (∀ x, f (g x) = Some (h x)) → omap f (map g l) = map h l.
Proof.
  intros Hf. induction l as [|x l IH]; [done|]. simpl. rewrite Hf. by f_equal.
Qed.

Lemma flat_map_nothing {A B} (l : list A) : flat_map (λ _, @nil B) l = [].
Proof. by induction l. Qed.

Lemma global_calls_presence c pevs : global_calls (presence_steps c pevs) = [].
Proof.
  unfold global_calls, presence_steps. rewrite omap_flat_map.
  erewrite flat_map_ext; [apply flat_map_nothing|].
  intros pu. by apply omap_map_none.
Qed.

Lemma global_calls_invite c inv : global_calls (invite_steps c inv) = [].
Proof.
  unfold global_calls, invite_steps. rewrite omap_flat_map.
  erewrite flat_map_ext; [apply flat_map_nothing|].
  intros p. by apply omap_map_none.
Qed.

Lemma global_calls_leave c lv : ∀ known, global_calls (leave_steps c known lv) = [].
Proof.
  unfold global_calls. induction lv as [|[rid left_room] lv IH]; intros known; [done|].
  simpl. rewrite !omap_app, IH, omap_map_none by done.
  by destruct (decide (rid ∈ known)).
Qed.

Lemma global_calls_fan_out_global ls ev :
  global_calls (fan_out Global ls ev)
  = map (λ l, (l_callback l, ev)) (filter (wants ev) ls).
Proof. unfold global_calls, fan_out. by apply omap_map_some. Qed.

Lemma global_calls_fan_out_ephemeral ls ev :
  global_calls (fan_out Ephemeral ls ev) = [].
Proof. unfold global_calls, fan_out. by apply omap_map_none. Qed.

Lemma global_calls_joined_room c known rid jr :
  global_calls (joined_room_steps c known rid jr)
  = flat_map (λ raw, map (λ l, (l_callback l, in_room rid raw))
                         (filter (wants (in_room rid raw)) (listeners c)))
             (j_timeline jr).
Proof.
  unfold joined_room_steps, global_calls. rewrite !omap_app.
  replace (omap global_call (if decide (rid ∈ known) then [] else [MkRoom rid]))
    with (@nil (callback * event)) by (by destruct (decide (rid ∈ known))).
  rewrite omap_map_none by done. rewrite !omap_flat_map. simpl.
  etrans; [|apply app_nil_r]. f_equal.
  - apply flat_map_ext. intros raw. apply global_calls_fan_out_global.
  - erewrite flat_map_ext; [apply flat_map_nothing|].
    intros raw. apply global_calls_fan_out_ephemeral.
Qed.

Lemma global_calls_join c jn :
  ∀ known, global_calls (join_steps c known jn)
           = flat_map (λ p,
               flat_map (λ raw, map (λ l, (l_callback l, in_room p.1 raw))
                                    (filter (wants (in_room p.1 raw)) (listeners c)))
                        (j_timeline p.2)) jn.
Proof.
  induction jn as [|[rid jr] jn IH]; intros known; [done|].
  simpl. unfold global_calls in *. rewrite omap_app, IH. f_equal.
  apply global_calls_joined_room.
Qed.

(** C6: with callbacks that return and leave the registries and the rooms
    alone, the fan-out of an event of type [T] calls exactly the global
    listeners that have no filter or the filter [T], once each, in the order
    of their registration; and these fan-outs, one per timeline event of each
    joined room, are all the invocations of global listeners in a reconciled
    batch. *)
Theorem global_dispatch_order_and_filter apply_cb (fuel : nat) (b : batch)
    (c : MatrixClient) :
  well_behaved apply_cb →
  typed_events b →
  (registry_bound c < fuel)%nat →
  (∀ (ev : event) (T : string),
     ev !! "type" = Some T →
     let o := dispatch apply_cb fuel Global listeners ev c in
     res o = Return tt
     ∧ trace o = map (λ l, Call Global (l_callback l) (EventArg ev))
                     (filter (λ l, event_type l = None ∨ event_type l = Some T)
                             (listeners c)))
  ∧ global_calls (trace (_sync apply_cb fuel (Return (to_response b)) c))
    = expected_global_calls c b.
Proof.
  intros Hwb Hty Hfuel. split.
  - intros ev T HT o. subst o.
    assert (Hlen : (length (listeners c) < fuel)%nat)
      by (unfold registry_bound in Hfuel; lia).
    destruct (triple_dispatch apply_cb c (sync_token c) (dom (client_rooms c)) fuel
                Global listeners (listeners c) ev Hwb (mk_is_Some _ _ HT)
                (λ c' Hc', proj1 Hc') Hlen c (st_refl c)) as (Hres & Htr & _).
    split; [exact Hres|]. rewrite Htr. unfold fan_out. f_equal.
    apply list_filter_iff. intros l. unfold wants. by rewrite HT.
  - destruct (triple_sync apply_cb c (sync_token c) (dom (client_rooms c)) fuel b
                Hwb Hty Hfuel c (st_refl c)) as (_ & -> & _).
    unfold global_calls. rewrite !omap_app. simpl.
    fold (global_calls (presence_steps c (b_presence b))).
    fold (global_calls (invite_steps c (b_invite b))).
    fold (global_calls (leave_steps c (dom (client_rooms c)) (b_leave b))).
    rewrite global_calls_presence, global_calls_invite, global_calls_leave. simpl.
    apply global_calls_join.
Qed.

Lemma global_dispatch_order_and_filter_witness :
  trace (dispatch observers 3 Global listeners ev_A client_L1_L2)
  = [Call Global 1%nat (EventArg ev_A); Call Global 2%nat (EventArg ev_A)]
  ∧ trace (dispatch observers 3 Global listeners ev_B client_L1_L2)
    = [Call Global 2%nat (EventArg ev_B)].
Proof.
  assert (Hty : typed_events batch_join).
  { repeat constructor; by eexists. }
  assert (Hfuel : (registry_bound client_L1_L2 < 3)%nat) by (vm_compute; lia).
  destruct (global_dispatch_order_and_filter observers 3 batch_join client_L1_L2
              well_behaved_observers Hty Hfuel) as (Hfan & _).
  split.
  - apply (Hfan ev_A "A" eq_refl).
  - apply (Hfan ev_B "B" eq_refl).
Defined.

(** ** Unregistering a listener from within a callback *)

Lemma accepts_run (l : listener) (ev : event) (c : MatrixClient) :
  is_Some (ev !! "type") →
  accepts l ev c
  = {| res := Return (bool_decide (wants ev l)); final := c; trace := [] |}.
Proof.
  intros Hty.
  destruct (triple_accepts (λ c', c' = c) l ev Hty c eq_refl) as (Hres & Htr & Hfin).
  rewrite (outcome_eta (accepts l ev c)). by rewrite Hres, Htr, Hfin.
Qed.

Lemma fan_out_cons sc (l : listener) (ls : list listener) (ev : event) :
  fan_out sc (l :: ls) ev
  = (if decide (wants ev l) then [Call sc (l_callback l) (EventArg ev)] else [])
    ++ fan_out sc ls ev.
Proof. unfold fan_out. rewrite filter_cons. by destruct (decide (wants ev l)). Qed.

Lemma for_live_later_removals apply_cb (c0 : MatrixClient) (ev : event) :
  is_Some (ev !! "type") →
  removes_later_only apply_cb c0 ev →
  ∀ (fuel i : nat) (c : MatrixClient),
    sublist (listeners c) (listeners c0) →
    (length (listeners c) - i < fuel)%nat →
    let o := for_live fuel listeners i
               (λ l, let* ok := accepts l ev in
                     if ok : bool then call apply_cb Global (l_callback l) (EventArg ev)
                     else ret tt) c in
    res o = Return tt
    ∧ sublist (listeners (final o)) (listeners c)
    ∧ take i (listeners (final o)) = take i (listeners c)
    ∧ trace o = fan_out Global (drop i (listeners (final o))) ev.
Proof.
  intros Hty Hcb. induction fuel as [|fuel IH]; intros i c Hsub Hfuel; [lia|].
  simpl. destruct (listeners c !! i) as [l|] eqn:Hi.
  - (* the body, then the rest of the loop from the state [c1] the body left *)
    assert (Hbody : ∃ c1,
      (let* ok := accepts l ev in
       if ok : bool then call apply_cb Global (l_callback l) (EventArg ev)
       else ret tt) c
      = {| res := Return tt; final := c1;
           trace := if decide (wants ev l)
                    then [Call Global (l_callback l) (EventArg ev)] else [] |}
      ∧ sublist (listeners c1) (listeners c)
      ∧ take (S i) (listeners c1) = take (S i) (listeners c)).
    { erewrite bind_return_eq by (by apply accepts_run).
      destruct (decide (wants ev l)) as [Hw|Hw].
      - rewrite bool_decide_eq_true_2 by done.
        destruct (Hcb c i l Hsub Hi Hw) as (Hres & Hsub1 & Htake1).
        exists (apply_cb (l_callback l) (EventArg ev) c).2.
        unfold call. simpl. by rewrite Hres.
      - rewrite bool_decide_eq_false_2 by done. by exists c. }
    destruct Hbody as (c1 & Hrun & Hsub1 & Htake1).
    erewrite bind_return_eq by exact Hrun.
    apply sublist_length in Hsub1 as Hlen1.
    apply lookup_lt_Some in Hi as Hlt.
    destruct (IH (S i) c1) as (Hres & Hsubf & Htakef & Htr);
      [by etrans | lia |].
    cbv zeta in Hres, Hsubf, Htakef, Htr.
    set (o := for_live fuel listeners (S i) _ c1) in *.
    simpl.
    assert (Htake : take (S i) (listeners (final o)) = take (S i) (listeners c))
      by congruence.
    assert (Hl : listeners (final o) !! i = Some l).
    { rewrite <- (lookup_take_lt _ (S i)) by lia. rewrite Htake.
      by rewrite lookup_take_lt by lia. }
    split; [done|]. split; [by etrans|]. split.
    + apply (f_equal (take i)) in Htake. rewrite !take_take in Htake.
      by replace (i `min` S i)%nat with i in Htake by lia.
    + rewrite (drop_S _ _ _ Hl), fan_out_cons. by rewrite Htr.
  - simpl. split; [done|]. split; [done|]. split; [done|].
    rewrite drop_ge by (by apply lookup_ge_None). done.
Qed.

(** C5, as the code has it.  The fan-out walks the registry itself, by
    position.  If every callback returns and unregisters only listeners that
    stand behind the one being called, the fan-out returns and has called
    exactly the listeners that want the event and are still registered when
    it ends, once each, in registration order: a listener is left out only
    if it was unregistered, and then before its turn. *)
Theorem removal_during_dispatch apply_cb (fuel : nat) (c : MatrixClient) (ev : event) :
  is_Some (ev !! "type") →
  removes_later_only apply_cb c ev →
  (length (listeners c) < fuel)%nat →
  let o := dispatch apply_cb fuel Global listeners ev c in
  res o = Return tt
  ∧ sublist (listeners (final o)) (listeners c)
  ∧ trace o = fan_out Global (listeners (final o)) ev.
Proof.
  intros Hty Hcb Hfuel o. subst o. unfold dispatch.
  destruct (for_live_later_removals apply_cb c ev Hty Hcb fuel 0 c)
    as (Hres & Hsub & _ & Htr); [done | lia |].
  by rewrite drop_0 in Htr.
Qed.

(** C5 as stated fails: the first listener unregisters itself while it is
    called; the second one, registered from the start and never removed,
    wants the event and is not called. *)
Lemma self_removal_skips_next_listener :
  let second := {| uid := 2%N; l_callback := 0%nat; event_type := None |} in
  let o := dispatch unregistering 5 Global listeners ev_A client_self_removing in
  second ∈ listeners client_self_removing
  ∧ wants ev_A second
  ∧ res o = Return tt
  ∧ listeners (final o) = [second]
  ∧ trace o = [Call Global 1%nat (EventArg ev_A)]
  ∧ trace (_sync unregistering 5 (Return (to_response batch_join)) client_self_removing)
    = [SetSyncToken "s2"; MkRoom "!r"; SetPrevBatch "!r" "p";
       PutEvent "!r" (in_room "!r" ev_A);
       Call Global 1%nat (EventArg (in_room "!r" ev_A));
       PutEvent "!r" (in_room "!r" ev_B);
       Call Global 0%nat (EventArg (in_room "!r" ev_B))].
Proof.
  split; [right; left|]. split; [by left|]. repeat split.
Qed.


(** Under [unregistering], the first listener of [client_removing_later]
    unregisters the third one and nobody else unregisters anybody: removals
    only hit listeners behind the caller. *)
Lemma unregistering_removes_later_only :
  removes_later_only unregistering client_removing_later ev_A.
Proof.
  intros c i l Hsub Hi _. generalize (EventArg ev_A). intros args.
  change (listeners client_removing_later) with
    [ {| uid := 1%N; l_callback := 3%nat; event_type := None |};
      {| uid := 2%N; l_callback := 0%nat; event_type := None |};
      {| uid := 3%N; l_callback := 0%nat; event_type := None |} ] in Hsub.
  remember (listeners c) as L eqn:HL.
  apply sublist_cons_r in Hsub as [Hsub|(? & ? & Hsub)].
  all: apply sublist_cons_r in Hsub as [Hsub|(? & ? & Hsub)].
  all: apply sublist_cons_r in Hsub as [Hsub|(? & ? & Hsub)].
  all: apply sublist_nil_r in Hsub.
  all: subst.
  all: match goal with
       | H : listeners _ = _ |- _ => rewrite H in Hi |- *; rename H into Hc
       end.
  all: repeat (destruct i as [|i]; simpl in Hi; try discriminate Hi).
  all: injection Hi as <-.
  all: cbn [l_callback unregistering fst snd].
  all: split; [reflexivity|].
  all: unfold remove_listener; cbn [listeners with_listeners]; rewrite ?Hc.
  all: split; [try reflexivity; vm_compute; repeat constructor | reflexivity].
Qed.

Lemma removal_during_dispatch_witness :
  trace (dispatch unregistering 5 Global listeners ev_A client_removing_later)
  = [Call Global 3%nat (EventArg ev_A); Call Global 0%nat (EventArg ev_A)].
Proof.
  assert (Hty : is_Some (ev_A !! "type")) by (by eexists).
  assert (Hfuel : (length (listeners client_removing_later) < 5)%nat)
    by (vm_compute; lia).
  destruct (removal_during_dispatch unregistering 5 client_removing_later ev_A
              Hty unregistering_removes_later_only Hfuel) as (_ & _ & Htr).
  rewrite Htr. reflexivity.
Defined.

(** ** Reconciling a well-formed batch *)

(** C8: on a well-formed batch, with callbacks that return and leave the
    registries and the room set alone, [_sync] returns and what it did is,
    in this order: the token advance, the presence dispatch, the invite
    dispatch, for each left room the leave dispatch and the removal, and for
    each joined room the creation if the room is new, the pagination cursor,
    the state events, the timeline events each followed by its fan-out to the
    global listeners, and the ephemeral events each followed by its fan-out to
    the ephemeral listeners.  And whatever the callbacks do and however the
    call ends, no effect of a step is followed by an effect of an earlier
    step, nor, within a joined room, by an effect of an earlier sub-step. *)
Theorem _sync_steps_in_order apply_cb (fuel : nat) (b : batch) (c : MatrixClient) :
  well_behaved apply_cb →
  typed_events b →
  (registry_bound c < fuel)%nat →
  let o := _sync apply_cb fuel (Return (to_response b)) c in
  (res o = Return tt
   ∧ trace o = reconcile_steps c b
   ∧ sync_token (final o) = Some (b_next_batch b))
  ∧ (∀ cbs n reply c', in_order step_of (trace (_sync cbs n reply c')))
  ∧ (∀ cbs n rid sr c',
       in_order substep_of (trace (sync_joined_room cbs n rid sr c'))).
Proof.
  intros Hwb Hty Hfuel o. subst o. split; [|split].
  - destruct (triple_sync apply_cb c (sync_token c) (dom (client_rooms c)) fuel b
                Hwb Hty Hfuel c (st_refl c)) as (Hres & Htr & Hst).
    split; [exact Hres|]. split; [exact Htr|].
    by destruct Hst as (_ & _ & _ & _ & _ & Htok & _).
  - intros cbs n reply c'. apply (steps_within_sync cbs n reply c').
  - intros cbs n rid sr c'. apply (steps_within_sync_joined_room cbs n rid sr c').
Qed.

Lemma _sync_steps_in_order_witness :
  trace (_sync observers 3 (Return (to_response batch_join)) client_L1_L2)
  = [SetSyncToken "s2"; MkRoom "!r"; SetPrevBatch "!r" "p";
     PutEvent "!r" (in_room "!r" ev_A);
     Call Global 1%nat (EventArg (in_room "!r" ev_A));
     Call Global 2%nat (EventArg (in_room "!r" ev_A));
     PutEvent "!r" (in_room "!r" ev_B);
     Call Global 2%nat (EventArg (in_room "!r" ev_B))].
Proof.
  assert (Hty : typed_events batch_join).
  { repeat constructor; by eexists. }
  assert (Hfuel : (registry_bound client_L1_L2 < 3)%nat) by (vm_compute; lia).
  destruct (_sync_steps_in_order observers 3 batch_join client_L1_L2
              well_behaved_observers Hty Hfuel) as ((_ & Htr & _) & _).
  rewrite Htr. vm_compute. reflexivity.
Defined.

(** * More properties of the client *)

(** ** What a computation leaves alone *)

Section Preserves.

Variable apply_cb : callback → cb_args → MatrixClient → result unit * MatrixClient.
Context {B : Type} (f : MatrixClient → B).
Hypothesis f_callbacks : ∀ cb args c, f (apply_cb cb args c).2 = f c.
Hypothesis f_token : ∀ t c, f (with_sync_token t c) = f c.
Hypothesis f_rooms : ∀ R c, f (with_rooms R c) = f c.

Lemma preserves_same {A} (m : M A) : (∀ c, final (m c) = c) → preserves f m.
Proof. intros Hm c. by rewrite Hm. Qed.

Lemma preserves_getitem {A} (key : string) (field : option A) :
  preserves f (getitem key field).
Proof. intros c. by destruct field. Qed.

Lemma preserves_bind {A C} (m : M A) (k : A → M C) :
  preserves f m → (∀ a, preserves f (k a)) → preserves f (bind m k).
Proof.
  intros Hm Hk c. unfold bind. specialize (Hm c).
  destruct (res (m c)) as [a| |]; simpl; [|done..].
  by rewrite Hk.
Qed.

Lemma preserves_call sc cb args : preserves f (call apply_cb sc cb args).
Proof. intros c. simpl. apply f_callbacks. Qed.

Lemma preserves_for_each {A} (xs : list A) (body : A → M unit) :
  (∀ x, preserves f (body x)) → preserves f (for_each xs body).
Proof.
  intros Hbody. induction xs as [|x xs IH]; simpl; [done|].
  apply preserves_bind; [apply Hbody | done].
Qed.

Lemma preserves_for_live {A} (registry : MatrixClient → list A) (body : A → M unit) :
  (∀ x, preserves f (body x)) → ∀ fuel i, preserves f (for_live fuel registry i body).
Proof.
  intros Hbody. induction fuel as [|fuel IH]; intros i c; simpl; [done|].
  destruct (registry c !! i) as [x|]; [|done].
  apply (preserves_bind (body x) (λ _, for_live fuel registry (S i) body));
    [apply Hbody | intros _; apply IH].
Qed.

Lemma preserves_for_presence_values (size0 : nat) (body : callback → M unit) :
  (∀ cb, preserves f (body cb)) → ∀ n, preserves f (for_presence_values size0 n body).
Proof.
  intros Hbody. induction n as [|n IH]; intros c; simpl.
  - by case_decide.
  - case_decide; [|done].
    destruct (presence_listeners c !! (size0 - S n)%nat) as [[u cb]|]; [|done].
    apply (preserves_bind (body cb) (λ _, for_presence_values size0 n body));
      [apply Hbody | intros _; apply IH].
Qed.

Lemma preserves_dispatch fuel sc (registry : MatrixClient → list listener) ev :
  preserves f (dispatch apply_cb fuel sc registry ev).
Proof.
  unfold dispatch. apply preserves_for_live. intros l.
  apply preserves_bind.
  - unfold accepts. destruct (event_type l); [|done].
    apply preserves_bind; [apply preserves_getitem | done].
  - intros [|]; [apply preserves_call | done].
Qed.

Lemma preserves_on_room rid (g : Room → Room) a : preserves f (on_room rid g a).
Proof. intros c. simpl. apply f_rooms. Qed.

Lemma preserves_sync_joined_room fuel rid (sr : sync_room) :
  preserves f (sync_joined_room apply_cb fuel rid sr).
Proof.
  unfold sync_joined_room.
  apply preserves_bind; [done|]. intros known.
  apply preserves_bind.
  { destruct known; [done|]. intros c. simpl. apply f_rooms. }
  intros _. apply preserves_bind; [apply preserves_getitem|]. intros tl.
  apply preserves_bind; [apply preserves_getitem|]. intros pb.
  apply preserves_bind; [apply preserves_on_room|]. intros _.
  apply preserves_bind; [apply preserves_getitem|]. intros sec.
  apply preserves_bind; [apply preserves_getitem|]. intros sevs.
  apply preserves_bind.
  { apply preserves_for_each. intros ev. apply preserves_on_room. }
  intros _. apply preserves_bind; [apply preserves_getitem|]. intros tl'.
  apply preserves_bind; [apply preserves_getitem|]. intros tevs.
  apply preserves_bind.
  { apply preserves_for_each. intros ev.
    apply preserves_bind; [apply preserves_on_room|]. intros _.
    apply preserves_dispatch. }
  intros _. apply preserves_bind; [apply preserves_getitem|]. intros ep.
  apply preserves_bind; [apply preserves_getitem|]. intros eevs.
  apply preserves_for_each. intros ev.
  apply preserves_bind; [apply preserves_on_room|]. intros _.
  apply preserves_dispatch.
Qed.

Lemma preserves_sync fuel (reply : result response) :
  preserves f (_sync apply_cb fuel reply).
Proof.
  unfold _sync.
  apply preserves_bind; [done|]. intros resp.
  apply preserves_bind; [apply preserves_getitem|]. intros tok.
  apply preserves_bind; [intros c; simpl; apply f_token|]. intros _.
  apply preserves_bind.
  { unfold sync_presence.
    apply preserves_bind; [apply preserves_getitem|]. intros pr.
    apply preserves_bind; [apply preserves_getitem|]. intros pevs.
    apply preserves_for_each. intros pu.
    apply preserves_bind; [done|]. intros size0.
    apply preserves_for_presence_values. intros cb. apply preserves_call. }
  intros _. apply preserves_bind.
  { unfold sync_invite.
    apply preserves_bind; [apply preserves_getitem|]. intros rs.
    apply preserves_bind; [apply preserves_getitem|]. intros inv.
    apply preserves_for_each. intros [rid ir].
    apply preserves_for_live. intros cb.
    apply preserves_bind; [apply preserves_getitem|]. intros ist.
    apply preserves_call. }
  intros _. apply preserves_bind.
  { unfold sync_leave.
    apply preserves_bind; [apply preserves_getitem|]. intros rs.
    apply preserves_bind; [apply preserves_getitem|]. intros lv.
    apply preserves_for_each. intros [rid left_room].
    apply preserves_bind.
    { apply preserves_for_live. intros cb. apply preserves_call. }
    intros _. apply preserves_bind; [done|].
    intros [|]; [|done]. intros c. simpl. apply f_rooms. }
  intros _. apply preserves_bind.
  { unfold sync_to_device. destruct (to_device resp); [|done].
    apply preserves_bind; [apply preserves_getitem | done]. }
  intros _. unfold sync_join.
  apply preserves_bind; [apply preserves_getitem|]. intros rs.
  apply preserves_bind; [apply preserves_getitem|]. intros jn.
  apply preserves_for_each. intros [rid sr]. apply preserves_sync_joined_room.
Qed.

End Preserves.

(** X1: of the client, [_sync] itself writes the token and the rooms and
    nothing else.  Any observation of the client that depends on neither and
    that the callbacks leave alone (a registry, [should_listen], the worker
    thread, the backoff limit) is the same after the call as before, however
    the call ends. *)
Theorem _sync_writes_token_and_rooms_only {B : Type} apply_cb (f : MatrixClient → B)
    (fuel : nat) (reply : result response) (c : MatrixClient) :
  (∀ cb args c', f (apply_cb cb args c').2 = f c') →
  (∀ t c', f (with_sync_token t c') = f c') →
  (∀ R c', f (with_rooms R c') = f c') →
  f (final (_sync apply_cb fuel reply c)) = f c.
Proof. intros Hcb Htok Hrooms. by apply preserves_sync. Qed.

Lemma _sync_writes_token_and_rooms_only_witness :
  listeners (final (_sync observers 3 (Return (to_response batch_join)) client_L1_L2))
  = listeners client_L1_L2.
Proof.
  apply (_sync_writes_token_and_rooms_only observers listeners 3
           (Return (to_response batch_join)) client_L1_L2); reflexivity.
Defined.

(** ** The poll loop, iteration by iteration *)

Lemma bind_raise_eq {A B} (m : M A) (k : A → M B) c e c1 t1 :
  m c = {| res := Raise e; final := c1; trace := t1 |} →
  bind m k c = {| res := Raise e; final := c1; trace := t1 |}.
Proof. intros Hm. unfold bind. by rewrite Hm. Qed.

Lemma try_except_return_eq {A} (m : M A) (h : exn → M A) c a :
  res (m c) = Return a → try_except m h c = m c.
Proof. intros Hm. unfold try_except. by rewrite Hm. Qed.

Lemma outcome_eq {A} (o : outcome A) r c t :
  res o = r → final o = c → trace o = t →
  o = {| res := r; final := c; trace := t |}.
Proof. intros <- <- <-. apply outcome_eta. Qed.

(** One turn of the [while] loop. *)
Lemma listen_loop_cons apply_cb fuel reply replies h base cur c :
  should_listen c = true →
  listen_loop apply_cb fuel (reply :: replies) h base cur c
  = bind (try_except (_sync apply_cb fuel reply >> ret base)
                     (on_sync_error apply_cb h base cur))
         (λ b, listen_loop apply_cb fuel replies h base b) c.
Proof.
  intros Hgo. simpl. erewrite bind_return_eq by reflexivity. rewrite Hgo.
  simpl. symmetry. apply outcome_eta.
Qed.

Lemma listen_loop_stopped apply_cb fuel replies h base cur c :
  should_listen c = false →
  listen_loop apply_cb fuel replies h base cur c
  = {| res := Return tt; final := c; trace := [] |}.
Proof.
  intros Hgo. destruct replies; simpl;
    erewrite bind_return_eq by reflexivity; by rewrite Hgo.
Qed.

(** A failed iteration: the effects of [_sync], then the [except] clause. *)
Lemma failed_iteration apply_cb fuel reply h base cur c e :
  res (_sync apply_cb fuel reply c) = Raise e →
  let s := _sync apply_cb fuel reply c in
  let o := on_sync_error apply_cb h base cur e (final s) in
  try_except (_sync apply_cb fuel reply >> ret base)
             (on_sync_error apply_cb h base cur) c
  = {| res := res o; final := final o; trace := trace s ++ trace o |}.
Proof.
  intros Hres s o.
  apply (try_except_raise_eq _ _ c e (final s) (trace s)).
  apply bind_raise_eq. by apply outcome_eq.
Qed.

(** What is not a server-side failure goes to [handle_or_raise]. *)
Lemma on_sync_error_other apply_cb h base cur e :
  ¬ server_side e →
  on_sync_error apply_cb h base cur e
  = (handle_or_raise apply_cb h e >> ret cur).
Proof.
  intros Hns. destruct e as [| | |code|]; try reflexivity.
  simpl. case_decide; [|done]. destruct Hns. by exists code.
Qed.



(** X3: without an exception handler, an iteration that fails with anything
    but a server-side error ends [listen_forever] with that exception: the
    effects are those of the failed [_sync], no further request is made, and
    [should_listen] is left set. *)
Theorem unhandled_error_ends_loop apply_cb (fuel : nat) (bad_sync_timeout : Z)
    (reply : result response) (rest : list (result response)) (c : MatrixClient)
    (e : exn) :
  let s := _sync apply_cb fuel reply (with_should_listen true c) in
  res s = Raise e →
  ¬ server_side e →
  let o := listen_forever apply_cb fuel (reply :: rest) None bad_sync_timeout c in
  res o = Raise e ∧ trace o = trace s ∧ final o = final s.
Proof.
  intros s Hres Hns o. subst o. unfold listen_forever.
  erewrite bind_return_eq by reflexivity.
  rewrite listen_loop_cons by reflexivity.
  erewrite bind_raise_eq.
  2:{ rewrite (failed_iteration _ _ _ _ _ _ _ e Hres).
      rewrite on_sync_error_other by done. reflexivity. }
  simpl. by rewrite app_nil_r.
Qed.

Lemma unhandled_error_ends_loop_witness :
  res (listen_forever observers 1
         [Raise (MatrixRequestError 403); Return (to_response batch_join)]
         None 5 init_client)
  = Raise (MatrixRequestError 403).
Proof.
  apply (unhandled_error_ends_loop observers 1 5 (Raise (MatrixRequestError 403))
           [Return (to_response batch_join)] init_client (MatrixRequestError 403)).
  - reflexivity.
  - intros (code & Heq & Hcode). injection Heq as <-. lia.
Defined.

(** X4: with an exception handler that returns and leaves [should_listen]
    set, every request that fails with anything but a server-side error
    makes one call of the handler, with the exception, and the loop goes on:
    it never sleeps and never raises. *)
Theorem handled_errors_keep_loop_running apply_cb (fuel : nat) (h : callback)
    (bad_sync_timeout : Z) (es : list exn) (c : MatrixClient) :
  (∀ e c', (apply_cb h (ExnArg e) c').1 = Return tt
           ∧ should_listen (apply_cb h (ExnArg e) c').2 = should_listen c') →
  Forall (λ e, ¬ server_side e) es →
  let o := listen_forever apply_cb fuel (map Raise es) (Some h) bad_sync_timeout c in
  res o = OutOfFuel
  ∧ trace o = map (λ e, Call Handler h (ExnArg e)) es
  ∧ should_listen (final o) = true.
Proof.
  intros Hh Hes o. subst o. unfold listen_forever.
  erewrite bind_return_eq by reflexivity.
  assert (Hloop : ∀ cur c1, should_listen c1 = true →
    let l := listen_loop apply_cb fuel (map Raise es) (Some h) bad_sync_timeout cur c1 in
    res l = OutOfFuel
    ∧ trace l = map (λ e, Call Handler h (ExnArg e)) es
    ∧ should_listen (final l) = true).
  { induction Hes as [|e es He _ IH]; intros cur c1 Hgo.
    - simpl. unfold bind, get, out_of_fuel. simpl. by rewrite Hgo.
    - cbv zeta. rewrite map_cons, listen_loop_cons by done.
      destruct (Hh e c1) as [Hret Hkeep].
      erewrite bind_return_eq.
      2:{ rewrite (failed_iteration apply_cb fuel (Raise e) (Some h)
                     bad_sync_timeout cur c1 e eq_refl).
          rewrite on_sync_error_other by done. simpl.
          erewrite bind_return_eq
            by (unfold call; apply outcome_eq; [exact Hret | reflexivity..]).
          reflexivity. }
      destruct (IH cur (apply_cb h (ExnArg e) c1).2) as (Hr & Ht & Hf);
        [congruence|].
      cbv zeta in Hr, Ht, Hf. simpl. by rewrite Hr, Ht, Hf. }
  destruct (Hloop bad_sync_timeout (with_should_listen true c) eq_refl)
    as (Hr & Ht & Hf).
  cbv zeta in Hr, Ht, Hf. cbn [res final trace app]. by rewrite Hr, Ht, Hf.
Qed.

Lemma handled_errors_keep_loop_running_witness :
  trace (listen_forever observers 1
           [Raise (MatrixRequestError 403); Raise (KeyError "rooms")]
           (Some 7%nat) 5 init_client)
  = [Call Handler 7%nat (ExnArg (MatrixRequestError 403));
     Call Handler 7%nat (ExnArg (KeyError "rooms"))].
Proof.
  apply (handled_errors_keep_loop_running observers 1 7%nat 5
           [MatrixRequestError 403; KeyError "rooms"] init_client).
  - intros e c'. by split.
  - repeat constructor.
    + intros (code & Heq & Hcode). injection Heq as <-. lia.
    + intros (code & Heq & _). discriminate Heq.
Defined.

(** X5: the loop stops between two iterations.  When the exception handler
    (or, through it, [stop_listener_thread]) clears [should_listen],
    [listen_forever] returns normally after that iteration and makes no
    further request. *)
Theorem cleared_flag_ends_loop apply_cb (fuel : nat) (h : callback)
    (bad_sync_timeout : Z) (e : exn) (rest : list (result response))
    (c : MatrixClient) :
  let c1 := with_should_listen true c in
  (apply_cb h (ExnArg e) c1).1 = Return tt →
  should_listen (apply_cb h (ExnArg e) c1).2 = false →
  ¬ server_side e →
  let o := listen_forever apply_cb fuel (Raise e :: rest) (Some h) bad_sync_timeout c in
  res o = Return tt
  ∧ trace o = [Call Handler h (ExnArg e)]
  ∧ final o = (apply_cb h (ExnArg e) c1).2.
Proof.
  intros c1 Hret Hoff Hns o. subst o c1. unfold listen_forever.
  erewrite bind_return_eq by reflexivity.
  rewrite listen_loop_cons by reflexivity.
  erewrite bind_return_eq.
  2:{ rewrite (failed_iteration apply_cb fuel (Raise e) (Some h)
                 bad_sync_timeout bad_sync_timeout (with_should_listen true c)
                 e eq_refl).
      rewrite on_sync_error_other by done. simpl.
      erewrite bind_return_eq
        by (unfold call; apply outcome_eq; [exact Hret | reflexivity..]).
      reflexivity. }
  rewrite listen_loop_stopped by exact Hoff. done.
Qed.

Lemma cleared_flag_ends_loop_witness :
  res (listen_forever stopping 1
         [Raise (MatrixRequestError 403); Return (to_response batch_join)]
         (Some 7%nat) 5 init_client)
  = Return tt.
Proof.
  apply (cleared_flag_ends_loop stopping 1 7%nat 5 (MatrixRequestError 403)
           [Return (to_response batch_join)] init_client).
  - reflexivity.
  - reflexivity.
  - intros (code & Heq & Hcode). injection Heq as <-. lia.
Defined.

(** X6: successive batches are reconciled in turn, each on top of the one
    before.  With callbacks that return and leave registries, token, rooms
    and [should_listen] alone, [listen_forever] given well-formed batches
    performs the steps of each batch in the order of arrival, ends with
    the token of the last batch and with the rooms the batches add up to,
    and then asks for the next batch. *)
Theorem batches_reconciled_in_turn apply_cb (fuel : nat) (h : option callback)
    (bad_sync_timeout : Z) (bs : list batch) (c : MatrixClient) :
  well_behaved apply_cb →
  keeps_listening apply_cb →
  Forall typed_events bs →
  (registry_bound c < fuel)%nat →
  let o := listen_forever apply_cb fuel (map (λ b, Return (to_response b)) bs)
             h bad_sync_timeout c in
  res o = OutOfFuel
  ∧ trace o = batches_steps c (dom (client_rooms c)) bs
  ∧ sync_token (final o) = token_after (sync_token c) bs
  ∧ dom (client_rooms (final o)) = foldl rooms_after_batch (dom (client_rooms c)) bs.
Proof.
  intros Hwb Hkeep Hbs Hfuel o. subst o. unfold listen_forever.
  erewrite bind_return_eq by reflexivity.
  assert (Hloop : ∀ cur tok known c1,
    st c tok known c1 → should_listen c1 = true →
    let l := listen_loop apply_cb fuel (map (λ b, Return (to_response b)) bs)
               h bad_sync_timeout cur c1 in
    res l = OutOfFuel
    ∧ trace l = batches_steps c known bs
    ∧ sync_token (final l) = token_after tok bs
    ∧ dom (client_rooms (final l)) = foldl rooms_after_batch known bs).
  { induction Hbs as [|b bs Hb _ IH]; intros cur tok known c1 Hst Hgo.
    - simpl. unfold bind, get, out_of_fuel. simpl. rewrite Hgo. simpl.
      by destruct Hst as (_ & _ & _ & _ & _ & Ht & Hd).
    - cbv zeta. rewrite map_cons, listen_loop_cons by done.
      destruct (triple_sync apply_cb c tok known fuel b Hwb Hb Hfuel c1 Hst)
        as (Hres & Htr & Hst').
      set (s := _sync apply_cb fuel (Return (to_response b)) c1) in *.
      assert (Hgo' : should_listen (final s) = true).
      { rewrite <- Hgo. by apply (preserves_sync apply_cb should_listen). }
      rewrite (bind_return_eq _ _ c1 bad_sync_timeout (final s) (trace s)).
      2:{ rewrite try_except_return_eq with (a := bad_sync_timeout).
          - erewrite bind_return_eq by (by apply outcome_eq).
            unfold ret. cbn [res final trace]. by rewrite app_nil_r, Htr.
          - erewrite bind_return_eq by (by apply outcome_eq). reflexivity. }
      destruct (IH bad_sync_timeout (Some (b_next_batch b))
                  (rooms_after_batch known b) (final s) Hst' Hgo')
        as (Hr & Ht & Hk & Hd).
      cbv zeta in Hr, Ht, Hk, Hd. cbn [res final trace].
      rewrite Hr, Ht, Hk, Hd, Htr.
      split; [done|]. split; [|done].
      unfold batch_steps. simpl. by rewrite <- !app_assoc. }
  destruct (Hloop bad_sync_timeout (sync_token c) (dom (client_rooms c))
              (with_should_listen true c)) as (Hr & Ht & Hk & Hd);
    [by repeat split | reflexivity |].
  cbv zeta in Hr, Ht, Hk, Hd. cbn [res final trace app]. by rewrite Hr, Ht, Hk, Hd.
Qed.

Lemma batches_reconciled_in_turn_witness :
  sync_token (final (listen_forever observers 3
                       [Return (to_response batch_invite);
                        Return (to_response batch_join)] None 5 client_L1_L2))
  = Some "s2".
Proof.
  assert (Hty : Forall typed_events [batch_invite; batch_join]).
  { repeat constructor; by eexists. }
  assert (Hfuel : (registry_bound client_L1_L2 < 3)%nat) by (vm_compute; lia).
  destruct (batches_reconciled_in_turn observers 3 None 5 [batch_invite; batch_join]
              client_L1_L2 well_behaved_observers (λ _ _ _, eq_refl) Hty Hfuel)
    as (_ & _ & Htok & _).
  exact Htok.
Defined.

(** ** Starting and stopping the worker *)


(** X8: when [thread.start()] raises [RuntimeError], [start_listener_thread]
    swallows the error: it returns normally, no worker runs, and yet the
    thread is recorded and [should_listen] is set.  A later
    [stop_listener_thread] then has to join a thread that never started;
    when that join raises, the error comes out of [stop_listener_thread] and
    the thread stays recorded. *)
Theorem failed_start_looks_running (c : MatrixClient) (timeout_ms : Z)
    (exception_handler : option callback) :
  let t := {| th_timeout_ms := timeout_ms;
              th_exception_handler := exception_handler |} in
  let o := start_listener_thread false timeout_ms exception_handler c in
  let o' := stop_listener_thread
              (Some "cannot join thread before it is started") (final o) in
  (res o = Return tt
   ∧ trace o = []
   ∧ final o = with_should_listen true (with_sync_thread (Some t) c)
   ∧ running (final o) = true)
  ∧ res o' = Raise (RuntimeError "cannot join thread before it is started")
  ∧ trace o' = []
  ∧ sync_thread (final o') = Some t
  ∧ should_listen (final o') = false.
Proof. by destruct c. Qed.

(** ** A fan-out that meets a fault, a new listener, or itself *)

Lemma offer_run apply_cb sc (ev : event) (l : listener) (c : MatrixClient) :
  is_Some (ev !! "type") ∨ event_type l = None →
  offer apply_cb sc ev l c
  = if decide (wants ev l)
    then call apply_cb sc (l_callback l) (EventArg ev) c
    else {| res := Return tt; final := c; trace := [] |}.
Proof.
  intros Hty. unfold offer.
  assert (Hacc : accepts l ev c
    = {| res := Return (bool_decide (wants ev l)); final := c; trace := [] |}).
  { destruct Hty as [Hty|Hnone]; [by apply accepts_run|].
    unfold accepts. rewrite Hnone.
    rewrite bool_decide_eq_true_2 by (by left). reflexivity. }
  erewrite bind_return_eq by exact Hacc.
  destruct (decide (wants ev l)).
  - rewrite bool_decide_eq_true_2 by done. simpl. symmetry. apply outcome_eta.
  - by rewrite bool_decide_eq_false_2 by done.
Qed.

(** The fan-out over a stretch [mid] of listeners whose callbacks return and
    leave the registry as it is: it performs the calls of [mid] and goes on
    behind it. *)
Lemma for_live_stretch apply_cb sc (ev : event) (L : list listener) :
  is_Some (ev !! "type") →
  ∀ (mid pre rest : list listener),
    L = pre ++ mid ++ rest →
    (∀ x c', x ∈ mid → listeners c' = L → wants ev x →
       (apply_cb (l_callback x) (EventArg ev) c').1 = Return tt
       ∧ listeners (apply_cb (l_callback x) (EventArg ev) c').2 = L) →
    ∀ fuel c1, listeners c1 = L →
      ∃ c2, listeners c2 = L
            ∧ for_live (length mid + fuel) listeners (length pre)
                (offer apply_cb sc ev) c1
              = let o := for_live fuel listeners (length pre + length mid)
                           (offer apply_cb sc ev) c2 in
                {| res := res o; final := final o;
                   trace := fan_out sc mid ev ++ trace o |}.
Proof.
  intros Hty. induction mid as [|x mid IH]; intros pre rest HL Hmid fuel c1 Hc1.
  - exists c1. split; [done|]. simpl. rewrite Nat.add_0_r. apply outcome_eta.
  - assert (Hx : L !! length pre = Some x).
    { rewrite HL. rewrite lookup_app_r by lia. by rewrite Nat.sub_diag. }
    simpl. rewrite Hc1, Hx.
    assert (Hbody : ∃ c', listeners c' = L
      ∧ offer apply_cb sc ev x c1
        = {| res := Return tt; final := c';
             trace := if decide (wants ev x)
                      then [Call sc (l_callback x) (EventArg ev)] else [] |}).
    { rewrite offer_run by (by left). destruct (decide (wants ev x)) as [Hw|Hw].
      - destruct (Hmid x c1) as [Hret Hkeep]; [left | done | done |].
        exists (apply_cb (l_callback x) (EventArg ev) c1).2. split; [done|].
        unfold call. simpl. by rewrite Hret.
      - by exists c1. }
    destruct Hbody as (c' & Hc' & Hrun).
    destruct (IH (pre ++ [x]) rest) with (fuel := fuel) (c1 := c') as (c2 & Hc2 & Hgo).
    { by rewrite <- app_assoc. }
    { intros y c'' Hy. apply Hmid. by right. }
    { done. }
    exists c2. split; [done|].
    erewrite bind_return_eq by exact Hrun.
    rewrite length_app in Hgo. simpl in Hgo.
    replace (S (length pre)) with (length pre + 1)%nat by lia.
    rewrite Hgo. cbv zeta. cbn [res final trace].
    replace (length pre + 1 + length mid)%nat with (length pre + S (length mid))%nat
      by lia.
    rewrite fan_out_cons. by rewrite <- app_assoc.
Qed.

(** X9: an exception raised by a listener's callback ends the fan-out: the
    listeners registered before the faulty one were called, the faulty one
    was called, the ones registered after it are not called for this event,
    and the exception comes out of the fan-out (and with it out of [_sync]). *)
Theorem listener_fault_aborts_fan_out apply_cb (fuel : nat) (c : MatrixClient)
    (ev : event) (pre post : list listener) (l : listener) (e : exn) :
  listeners c = pre ++ l :: post →
  is_Some (ev !! "type") →
  wants ev l →
  (∀ x c', x ∈ pre → listeners c' = listeners c → wants ev x →
     (apply_cb (l_callback x) (EventArg ev) c').1 = Return tt
     ∧ listeners (apply_cb (l_callback x) (EventArg ev) c').2 = listeners c) →
  (∀ c', listeners c' = listeners c →
     (apply_cb (l_callback l) (EventArg ev) c').1 = Raise e) →
  (length pre < fuel)%nat →
  let o := dispatch apply_cb fuel Global listeners ev c in
  res o = Raise e
  ∧ trace o = fan_out Global pre ev ++ [Call Global (l_callback l) (EventArg ev)].
Proof.
  intros HL Hty Hw Hpre Hl Hfuel o. subst o. unfold dispatch.
  change (λ l0, let* ok := accepts l0 ev in
                if ok : bool then call apply_cb Global (l_callback l0) (EventArg ev)
                else ret tt)
    with (offer apply_cb Global ev).
  destruct (for_live_stretch apply_cb Global ev (listeners c) Hty pre [] (l :: post)
              HL Hpre (fuel - length pre) c eq_refl) as (c2 & Hc2 & Hgo).
  replace (length pre + (fuel - length pre))%nat with fuel in Hgo by lia.
  simpl in Hgo. rewrite Hgo. clear Hgo. cbv zeta.
  destruct (fuel - length pre)%nat as [|k] eqn:Hk; [lia|].
  simpl. rewrite Hc2, HL.
  rewrite lookup_app_r by lia. rewrite Nat.sub_diag. simpl.
  erewrite bind_raise_eq.
  2:{ rewrite offer_run by (by left). rewrite decide_True by done.
      unfold call. apply outcome_eq; [|reflexivity..].
      simpl. apply Hl. by rewrite Hc2, HL. }
  done.
Qed.

Lemma listener_fault_aborts_fan_out_witness :
  res (dispatch faulty 3 Global listeners ev_A client_self_removing)
  = Raise (OtherError 0)
  ∧ trace (dispatch faulty 3 Global listeners ev_A client_self_removing)
    = [Call Global 1%nat (EventArg ev_A)].
Proof.
  apply (listener_fault_aborts_fan_out faulty 3 client_self_removing ev_A []
           [{| uid := 2%N; l_callback := 0%nat; event_type := None |}]
           {| uid := 1%N; l_callback := 1%nat; event_type := None |} (OtherError 0)).
  - reflexivity.
  - by eexists.
  - by left.
  - intros x c' Hx. by apply elem_of_nil in Hx.
  - reflexivity.
  - simpl. lia.
Defined.

(** X10: a callback that registers one more listener with itself on every
    call keeps the fan-out going: the loop reads the growing list and never
    reaches its end, whatever number of steps it is given. *)
Theorem self_registering_fan_out_never_ends apply_cb (cb : callback)
    (c : MatrixClient) (ev : event) :
  (∀ args c', ∃ u, apply_cb cb args c' = (Return tt, (add_listener u cb None c').2)) →
  listeners c ≠ [] →
  Forall (λ l, l_callback l = cb ∧ event_type l = None) (listeners c) →
  ∀ fuel, res (dispatch apply_cb fuel Global listeners ev c) = OutOfFuel.
Proof.
  intros Hcb Hne Hall fuel. unfold dispatch.
  change (λ l0, let* ok := accepts l0 ev in
                if ok : bool then call apply_cb Global (l_callback l0) (EventArg ev)
                else ret tt)
    with (offer apply_cb Global ev).
  assert (Hgen : ∀ n i c1,
    (i < length (listeners c1))%nat →
    Forall (λ l, l_callback l = cb ∧ event_type l = None) (listeners c1) →
    res (for_live n listeners i (offer apply_cb Global ev) c1) = OutOfFuel).
  { induction n as [|n IH]; intros i c1 Hi Hc1; [done|].
    simpl. destruct (listeners c1 !! i) as [l|] eqn:Hl.
    2:{ apply lookup_ge_None in Hl. lia. }
    destruct (proj1 (Forall_forall _ _) Hc1 l) as [Hlcb Hlty];
      [by eapply list_elem_of_lookup_2|].
    destruct (Hcb (EventArg ev) c1) as [u Hu].
    erewrite bind_return_eq.
    2:{ rewrite offer_run by (by right). rewrite decide_True by (by left).
        unfold call. rewrite Hlcb, Hu. reflexivity. }
    simpl. apply IH.
    - simpl. rewrite length_app. simpl. lia.
    - simpl. apply Forall_app. split; [done|]. by repeat constructor. }
  apply Hgen; [|done]. destruct (listeners c); [done | simpl; lia].
Qed.

Lemma self_registering_fan_out_never_ends_witness :
  res (dispatch registering 50 Global listeners ev_A
         (add_listener 0%N 4%nat None init_client).2)
  = OutOfFuel.
Proof.
  apply (self_registering_fan_out_never_ends registering 4%nat
           (add_listener 0%N 4%nat None init_client).2 ev_A).
  - intros args c'. by eexists.
  - discriminate.
  - by repeat constructor.
Defined.

(** X11: a presence callback that changes the number of presence listeners
    (one that unregisters itself, for instance) breaks the presence
    dispatch: right after that call the iteration over the dict raises
    [RuntimeError], no other presence listener is called, and the remaining
    presence updates and all of the rooms of the batch are left
    unprocessed, while the token has already moved on. *)
Theorem presence_listener_change_breaks_sync apply_cb (fuel : nat)
    (resp : response) (c : MatrixClient) (tok : string) (pu : event)
    (pevs : list event) (u : uuid) (cb : callback) (others : list (uuid * callback)) :
  next_batch resp = Some tok →
  presence resp = Some {| events := Some (pu :: pevs) |} →
  presence_listeners c = (u, cb) :: others →
  let c1 := with_sync_token (Some tok) c in
  (apply_cb cb (EventArg pu) c1).1 = Return tt →
  length (presence_listeners (apply_cb cb (EventArg pu) c1).2)
  ≠ length (presence_listeners c) →
  let o := _sync apply_cb fuel (Return resp) c in
  res o = Raise (RuntimeError "dictionary changed size during iteration")
  ∧ trace o = [SetSyncToken tok; Call Presence cb (EventArg pu)]
  ∧ final o = (apply_cb cb (EventArg pu) c1).2.
Proof.
  intros Htok Hpr Hpl c1 Hret Hsize o. subst o c1. unfold _sync.
  erewrite bind_return_eq by reflexivity. rewrite Htok.
  erewrite bind_return_eq by reflexivity.
  erewrite bind_return_eq by reflexivity.
  set (c1 := with_sync_token (Some tok) c) in *.
  erewrite bind_raise_eq.
  2:{ unfold sync_presence. rewrite Hpr.
      erewrite bind_return_eq by reflexivity.
      erewrite bind_return_eq by reflexivity.
      cbn [final ret for_each].
      erewrite bind_raise_eq; [reflexivity|].
      erewrite bind_return_eq by reflexivity.
      cbn [final get].
      replace (presence_listeners c1) with ((u, cb) :: others) by done.
      cbn [length for_presence_values].
      replace (presence_listeners c1) with ((u, cb) :: others) by done.
      rewrite decide_True by done. rewrite Nat.sub_diag. cbn [lookup list_lookup].
      erewrite bind_return_eq
        by (unfold call; apply outcome_eq; [exact Hret | reflexivity..]).
      rewrite Hpl in Hsize. simpl in Hsize.
      destruct others as [|p others']; simpl.
      - rewrite decide_False by done. reflexivity.
      - rewrite decide_False by done. reflexivity. }
  done.
Qed.

Lemma presence_listener_change_breaks_sync_witness :
  res (_sync unregistering_presence 1 (Return response_without_rooms) client_presence)
  = Raise (RuntimeError "dictionary changed size during iteration").
Proof.
  apply (presence_listener_change_breaks_sync unregistering_presence 1
           response_without_rooms client_presence "s2" ev_A [] 9%N 9%nat []).
  - reflexivity.
  - reflexivity.
  - reflexivity.
  - reflexivity.
  - simpl. lia.
Defined.

(** ** Sections that are missing or empty *)

(** X12: a joined room is created before its section is read.  When the
    section of a room the client does not know lacks ["timeline"], or its
    timeline lacks ["prev_batch"], the reconciliation of that room raises
    [KeyError] for the missing key, and the room stays behind in the active
    set, newly built and with nothing in it. *)
Theorem joined_room_without_cursor_stays_behind apply_cb (fuel : nat)
    (rid : string) (sr : sync_room) (c : MatrixClient) :
  client_rooms c !! rid = None →
  match sr_timeline sr with
  | None => True
  | Some tl => tl_prev_batch tl = None
  end →
  let o := sync_joined_room apply_cb fuel rid sr c in
  res o = Raise (KeyError (if sr_timeline sr is Some _ then "prev_batch" else "timeline"))
  ∧ trace o = [MkRoom rid]
  ∧ final o = with_rooms (<[rid := new_Room rid]> (client_rooms c)) c
  ∧ client_rooms (final o) !! rid = Some (new_Room rid).
Proof.
  intros Hnew Hmissing o. subst o. unfold sync_joined_room.
  erewrite bind_return_eq by reflexivity.
  rewrite bool_decide_eq_false_2 by (rewrite Hnew; by intros [? ?]).
  erewrite bind_return_eq by reflexivity.
  destruct (sr_timeline sr) as [tl|].
  - erewrite bind_return_eq by reflexivity. rewrite Hmissing. simpl.
    split; [done|]. split; [done|]. split; [done|]. apply lookup_insert_eq.
  - simpl. split; [done|]. split; [done|]. split; [done|]. apply lookup_insert_eq.
Qed.

Lemma joined_room_without_cursor_stays_behind_witness :
  client_rooms
    (final (sync_joined_room observers 1 "!r"
              {| sr_state := None; sr_timeline := None; sr_ephemeral := None |}
              init_client)) !! "!r"
  = Some (new_Room "!r").
Proof.
  apply (joined_room_without_cursor_stays_behind observers 1 "!r"
           {| sr_state := None; sr_timeline := None; sr_ephemeral := None |}
           init_client).
  - reflexivity.
  - exact I.
Defined.

(** X13: ["invite_state"] is read once per invite listener, not once per
    invitation.  With no invite listener registered, an invite section is
    passed over whatever its entries contain; with a listener registered, an
    invitation without ["invite_state"] raises [KeyError] before the
    listener is called. *)
Theorem invite_state_is_read_per_listener apply_cb (fuel : nat) (resp : response)
    (rs : rooms_section) (inv : list (string * invite_room)) (c : MatrixClient) :
  rooms resp = Some rs →
  invite rs = Some inv →
  (0 < fuel)%nat →
  (invite_listeners c = [] →
   sync_invite apply_cb fuel resp c = {| res := Return tt; final := c; trace := [] |})
  ∧ (∀ rid ir inv', inv = (rid, ir) :: inv' → invite_state ir = None →
     invite_listeners c ≠ [] →
     sync_invite apply_cb fuel resp c
     = {| res := Raise (KeyError "invite_state"); final := c; trace := [] |}).
Proof.
  intros Hrs Hinv Hfuel. destruct fuel as [|fuel]; [lia|].
  unfold sync_invite. rewrite Hrs. split.
  - intros Hnone.
    assert (Hloop : ∀ (xs : list (string * invite_room)),
      for_each xs (λ '(rid, invite_room),
        for_live (S fuel) invite_listeners 0 (λ cb,
          let* st := getitem "invite_state" (invite_state invite_room) in
          call apply_cb Invite cb (InviteArgs rid st))) c
      = {| res := Return tt; final := c; trace := [] |}).
    { induction xs as [|[rid ir] xs IH]; [reflexivity|].
      cbn [for_each].
      rewrite (bind_return_eq _ _ c tt c []).
      - by rewrite IH.
      - simpl. by rewrite Hnone. }
    erewrite bind_return_eq by reflexivity. rewrite Hinv.
    erewrite bind_return_eq by reflexivity. cbn [final ret app].
    by rewrite (Hloop inv).
  - intros rid ir inv' -> Hmissing Hsome.
    erewrite bind_return_eq by reflexivity. rewrite Hinv.
    erewrite bind_return_eq by reflexivity. cbn [final ret app for_each].
    erewrite bind_raise_eq; [reflexivity|].
    simpl. destruct (invite_listeners c) as [|cb cbs]; [done|]. simpl.
    rewrite Hmissing. reflexivity.
Qed.

Lemma invite_state_is_read_per_listener_witness :
  sync_invite observers 1
    {| next_batch := Some "s2"; presence := None;
       rooms := Some {| invite := Some [("!r", {| invite_state := None |})];
                        leave := None; join := None |};
       to_device := None |} init_client
  = {| res := Return tt; final := init_client; trace := [] |}.
Proof.
  refine (proj1 (invite_state_is_read_per_listener observers 1
                   {| next_batch := Some "s2"; presence := None;
                      rooms := Some {| invite := Some [("!r", {| invite_state := None |})];
                                       leave := None; join := None |};
                      to_device := None |}
                   {| invite := Some [("!r", {| invite_state := None |})];
                      leave := None; join := None |}
                   [("!r", {| invite_state := None |})] init_client
                   eq_refl eq_refl _) eq_refl).
  lia.
Defined.

(** X14: an empty batch only moves the token.  Whatever listeners are
    registered and whatever their callbacks would do, nobody is called, no
    room is touched, and the call returns. *)
Theorem empty_batch_moves_token_only apply_cb (fuel : nat) (tok : string)
    (td : option (list event)) (c : MatrixClient) :
  _sync apply_cb fuel (Return (to_response (empty_batch tok td))) c
  = {| res := Return tt; final := with_sync_token (Some tok) c;
       trace := [SetSyncToken tok] |}.
Proof. destruct td; reflexivity. Qed.

(** ** Registering and unregistering, seen from the fan-out *)

(** X15: a listener is called from its registration to its removal, and
    it is called last.  With callbacks that return and leave registries and
    rooms alone, the fan-out of an event after [add_listener] is the fan-out
    before it, followed by the call of the new listener if it wants the
    event; and after [remove_listener] with the id [add_listener] returned
    the fan-out is again what it was. *)
Theorem added_listener_is_called_last apply_cb (fuel : nat) (c : MatrixClient)
    (ev : event) (u : uuid) (cb : callback) (ty : option string) :
  well_behaved apply_cb →
  is_Some (ev !! "type") →
  (∀ x, x ∈ listeners c → uid x ≠ u) →
  (S (length (listeners c)) < fuel)%nat →
  let l := {| uid := u; l_callback := cb; event_type := ty |} in
  let added := add_listener u cb ty c in
  trace (dispatch apply_cb fuel Global listeners ev added.2)
  = trace (dispatch apply_cb fuel Global listeners ev c)
    ++ (if decide (wants ev l) then [Call Global cb (EventArg ev)] else [])
  ∧ trace (dispatch apply_cb fuel Global listeners ev (remove_listener added.1 added.2))
    = trace (dispatch apply_cb fuel Global listeners ev c).
Proof.
  intros Hwb Hty Hfresh Hfuel l added. subst l added.
  assert (Hrun : ∀ c1, (length (listeners c1) < fuel)%nat →
    trace (dispatch apply_cb fuel Global listeners ev c1)
    = fan_out Global (listeners c1) ev).
  { intros c1 Hlen.
    by destruct (triple_dispatch apply_cb c1 (sync_token c1) (dom (client_rooms c1))
                   fuel Global listeners (listeners c1) ev Hwb Hty
                   (λ c' Hc', proj1 Hc') Hlen c1 (st_refl c1)) as (_ & -> & _). }
  split.
  - rewrite !Hrun by (simpl; rewrite ?length_app; simpl; lia).
    simpl. unfold fan_out. rewrite filter_app, map_app. f_equal.
    rewrite filter_cons, filter_nil. by destruct (decide (wants ev _)).
  - f_equal. unfold remove_listener, add_listener. simpl.
    rewrite (filter_after_append uid) by done. by destruct c.
Qed.

Lemma added_listener_is_called_last_witness :
  trace (dispatch observers 5 Global listeners ev_A
           (add_listener 3%N 7%nat None client_L1_L2).2)
  = trace (dispatch observers 5 Global listeners ev_A client_L1_L2)
    ++ [Call Global 7%nat (EventArg ev_A)].
Proof.
  refine (proj1 (added_listener_is_called_last observers 5 client_L1_L2 ev_A
                   3%N 7%nat None well_behaved_observers _ _ _)).
  - by eexists.
  - intros x Hx. simpl in Hx.
    apply elem_of_cons in Hx as [->|Hx]; [discriminate|].
    apply elem_of_cons in Hx as [->|Hx]; [discriminate|].
    by apply elem_of_nil in Hx.
  - simpl. lia.
Defined.

(** X16: unregistering is idempotent, the order of two removals does not
    matter, and the global and the ephemeral registry do not see each
    other's removals, even for the same id. *)
Theorem removals_compose (u v : uuid) (c : MatrixClient) :
  remove_listener u (remove_listener u c) = remove_listener u c
  ∧ remove_listener u (remove_listener v c) = remove_listener v (remove_listener u c)
  ∧ remove_ephemeral_listener u (remove_listener u c)
    = remove_listener u (remove_ephemeral_listener u c)
  ∧ listeners (remove_ephemeral_listener u c) = listeners c
  ∧ ephemeral_listeners (remove_listener u c) = ephemeral_listeners c.
Proof.
  unfold remove_listener, remove_ephemeral_listener, with_listeners,
    with_ephemeral_listeners. simpl.
  split; [|split; [|done]].
  - f_equal. rewrite list_filter_filter. apply list_filter_iff. tauto.
  - f_equal. rewrite !list_filter_filter. apply list_filter_iff. tauto.
Qed.

(** ** Joining and creating rooms *)

(** X17: [join_room] and [create_room] always store a newly built Room
    under the room id, also when that room is active already, whose entry
    they replace.  [join_room] takes the id from the response and falls back
    on its argument; it refuses an empty argument.  [create_room] needs the
    id in the response.  When the request fails, the rooms are as before. *)
Theorem join_and_create_store_new_room (alias : string) (r : option string)
    (c : MatrixClient) :
  alias ≠ "" →
  (let rid := default alias r in
   join_room alias (Return r) c
   = {| res := Return (new_Room rid);
        final := with_rooms (<[rid := new_Room rid]> (client_rooms c)) c;
        trace := [MkRoom rid] |})
  ∧ (∀ rid, create_room (Return (Some rid)) c
            = {| res := Return (new_Room rid);
                 final := with_rooms (<[rid := new_Room rid]> (client_rooms c)) c;
                 trace := [MkRoom rid] |})
  ∧ create_room (Return None) c
    = {| res := Raise (KeyError "room_id"); final := c; trace := [] |}
  ∧ (∀ reply, join_room "" reply c
              = {| res := Raise MatrixError; final := c; trace := [] |})
  ∧ (∀ e, join_room alias (Raise e) c = {| res := Raise e; final := c; trace := [] |}
          ∧ create_room (Raise e) c = {| res := Raise e; final := c; trace := [] |}).
Proof.
  intros Halias. split; [|split; [|split; [|split]]].
  - unfold join_room. rewrite decide_False by done.
    erewrite bind_return_eq by reflexivity.
    erewrite bind_return_eq by reflexivity.
    simpl. by rewrite lookup_insert_eq.
  - intros rid. unfold create_room.
    erewrite bind_return_eq by reflexivity.
    erewrite bind_return_eq by reflexivity.
    erewrite bind_return_eq by reflexivity.
    simpl. by rewrite lookup_insert_eq.
  - reflexivity.
  - reflexivity.
  - intros e. split; [|reflexivity].
    unfold join_room. by rewrite decide_False by done.
Qed.

Lemma join_and_create_store_new_room_witness :
  trace (join_room "#matrix:matrix.org" (Return None) init_client)
  = [MkRoom "#matrix:matrix.org"].
Proof.
  assert (Hne : "#matrix:matrix.org" ≠ "") by discriminate.
  pose proof (join_and_create_store_new_room "#matrix:matrix.org" None init_client Hne)
    as (Hjoin & _).
  cbv zeta in Hjoin. by rewrite Hjoin.
Defined.

(** * Properties of the HTTP layer *)


Lemma request_loop_final {C J} (default_ms : Z) (rq : Api.request C)
    (status_code : Z) (json : option (Api.json_body J))
    (rest : list (Api.http_reply J)) :
  status_code ≠ 429 →
  Api.request_loop default_ms rq (Api.Response status_code json :: rest)
  = (outcome_of status_code json, [Api.Sent rq], rest).
Proof.
  intros Hcode. cbn [Api.request_loop]. rewrite decide_False by done.
  unfold outcome_of.
  destruct (decide (status_code < 200 ∨ status_code >= 300)).
  - by rewrite decide_False by lia.
  - rewrite decide_True by lia. by destruct json.
Qed.


(** Every request of the loop is the one it was given. *)
Lemma request_loop_sends_one_request {C J} (default_ms : Z) (rq : Api.request C)
    (script : list (Api.http_reply J)) :
  Forall (λ rq', rq' = rq) (sent_requests (Api.request_loop default_ms rq script).1.2)
  ∧ (script ≠ [] → sent_requests (Api.request_loop default_ms rq script).1.2 ≠ []).
Proof.
  assert (Hstep : ∀ (r : Api.http_reply J) script',
    ∃ tail, sent_requests (Api.request_loop default_ms rq (r :: script')).1.2
            = rq :: tail
            ∧ (tail = []
               ∨ tail = sent_requests (Api.request_loop default_ms rq script').1.2)).
  { intros r script'. destruct r as [|code json]; cbn [Api.request_loop].
    { exists []. by split; [|left]. }
    destruct (decide (code = 429)) as [Hcode|Hcode].
    - destruct json as [body|]; [|exists []; by split; [|left]].
      destruct (Api.waittime default_ms body) as [ms|err];
        [|exists []; by split; [|left]].
      destruct (decide (ms < 0)); [exists []; by split; [|left]|].
      destruct (Api.request_loop default_ms rq script') as [[r' w'] rest'].
      eexists. split; [reflexivity|by right].
    - destruct (decide (code < 200 ∨ code >= 300)); [exists []; by split; [|left]|].
      destruct json; exists []; by split; [|left]. }
  split.
  - induction script as [|r script IH]; [by constructor|].
    destruct (Hstep r script) as (tail & -> & [-> | ->]); by repeat constructor.
  - destruct script as [|r script]; [done|]. intros _.
    by destruct (Hstep r script) as (tail & -> & _).
Qed.





(** X20: the access token travels in one place.  With
    [use_authorization_header] it is in the [Authorization] header and the
    query has no [access_token]; without, it is the [access_token] of the
    query and there is no such header.  Every other parameter of the caller,
    ['user_id'] apart, reaches the request as it was given.  A method that is
    none of GET, PUT, DELETE and POST once in upper case is refused before
    anything is sent. *)
Theorem _send_puts_token_in_one_place {C J} (version : string)
    (upper : string → string) (dumps : C → string) (self : Api.MatrixHttpApi)
    (method path : string) (content : option C)
    (query_params : gmap string Api.pyval) (headers : gmap string string)
    (api_path : string) :
  query_params !! "access_token" = None →
  headers !! "Authorization" = None →
  (upper method ∈ ["GET"; "PUT"; "DELETE"; "POST"] →
   ∃ rq, Api._send_request version upper dumps self method path content
                           query_params headers api_path = Return rq
         ∧ Api.rq_method rq = upper method
         ∧ (if Api.use_authorization_header self
            then Api.rq_headers rq !! "Authorization"
                 = Some ("Bearer " +:+ Api.str (Api.token self))
                 ∧ Api.rq_params rq !! "access_token" = None
            else Api.rq_headers rq !! "Authorization" = None
                 ∧ Api.rq_params rq !! "access_token"
                   = Some (Api.pyval_of (Api.token self)))
         ∧ (∀ k, k ≠ "access_token" → k ≠ "user_id" →
                 Api.rq_params rq !! k = query_params !! k))
  ∧ (upper method ∉ ["GET"; "PUT"; "DELETE"; "POST"] →
     ∀ script : list (Api.http_reply J),
       Api._send version upper dumps self method path content query_params
                 headers api_path script
       = (Raise MatrixError, [], script)).
Proof.
  intros Hq Hh. split.
  - intros Hm. unfold Api._send_request. rewrite decide_True by done.
    eexists. split; [reflexivity|]. cbn [Api.rq_method Api.rq_headers Api.rq_params].
    split; [done|].
    assert (Hh' : (if decide (is_Some
                     ((if decide (is_Some (headers !! "User-Agent")) then headers
                       else <["User-Agent" := "matrix-python-sdk/" +:+ version]> headers)
                      !! "Content-Type"))
                   then (if decide (is_Some (headers !! "User-Agent")) then headers
                         else <["User-Agent" := "matrix-python-sdk/" +:+ version]> headers)
                   else <["Content-Type" := "application/json"]>
                          (if decide (is_Some (headers !! "User-Agent")) then headers
                           else <["User-Agent" := "matrix-python-sdk/" +:+ version]> headers))
                  !! "Authorization" = None).
    { repeat case_decide; rewrite ?lookup_insert_ne by done; done. }
    split.
    + destruct (Api.use_authorization_header self).
      * split; [by rewrite lookup_insert_eq|].
        destruct (Api.truthy (Api.identity self));
          rewrite ?lookup_insert_ne by done; done.
      * split; [done|].
        destruct (Api.truthy (Api.identity self));
          rewrite ?lookup_insert_ne by done; by rewrite lookup_insert_eq.
    + intros k Hk1 Hk2.
      destruct (Api.use_authorization_header self),
        (Api.truthy (Api.identity self));
        rewrite ?lookup_insert_ne by done; done.
  - intros Hm script. unfold Api._send, Api._send_request.
    by rewrite decide_False by done.
Qed.

Lemma _send_puts_token_in_one_place_witness :
  ∃ rq : Api.request string,
    Api._send_request "0.3.2" Api.upper_ascii (λ s : string, s) api_example
                      "post" "/join/x" None ∅ ∅ Api.MATRIX_V2_API_PATH = Return rq
    ∧ Api.rq_headers rq !! "Authorization" = Some "Bearer secret"
    ∧ Api.rq_params rq !! "access_token" = None.
Proof.
  destruct (proj1 (_send_puts_token_in_one_place (J := unit) "0.3.2" Api.upper_ascii
                     (λ s : string, s) api_example "post" "/join/x" None ∅ ∅
                     Api.MATRIX_V2_API_PATH (lookup_empty _) (lookup_empty _)))
    as (rq & Hrq & _ & Htok & _).
  - do 3 apply list_elem_of_further. apply list_elem_of_here.
  - exists rq. split; [exact Hrq|]. exact Htok.
Defined.

(** X21: each poll continues from the batch before it.  After a batch
    has been reconciled, by callbacks that return and leave registries, token
    and rooms alone, every request of the next poll carries the token of that
    batch as ['since']; an empty token is left out, as is the missing token
    of a client that has not synchronised yet, so that the server answers
    with a full snapshot. *)
Theorem next_poll_continues_from_batch {C} apply_cb (version : string)
    (upper : string → string) (dumps : C → string) (api : Api.MatrixHttpApi)
    (sync_filter : option string) (fuel : nat) (timeout_ms : Z) (b : batch)
    (script : list (Api.http_reply response)) (c : MatrixClient) :
  well_behaved apply_cb →
  typed_events b →
  (registry_bound c < fuel)%nat →
  upper "GET" = "GET" →
  let first :=
    _sync_over_http apply_cb version upper dumps api sync_filter fuel timeout_ms
                    (ok (to_response b) :: script) c in
  let second :=
    _sync_over_http apply_cb version upper dumps api sync_filter fuel timeout_ms
                    first.2 (final first.1.1) in
  res first.1.1 = Return tt
  ∧ first.2 = script
  ∧ (∃ rq, first.1.2 = [Api.Sent (C := C) rq]
           ∧ (sync_token c = None → Api.rq_params rq !! "since" = None))
  ∧ Forall (λ rq, Api.rq_params rq !! "since"
                  = if decide (b_next_batch b = "") then None
                    else Some (Api.PyStr (b_next_batch b)))
           (sent_requests second.1.2)
  ∧ (script ≠ [] → sent_requests second.1.2 ≠ []).
Proof.
  intros Hwb Hty Hfuel Hupper first second.
  assert (Hsend : ∀ since,
    ∃ rq : Api.request C,
      (∀ s : list (Api.http_reply response),
         Api.sync version upper dumps api since timeout_ms sync_filter None None s
            = Api.request_loop (Api.default_429_wait_ms api) rq s)
      ∧ Api.rq_params rq !! "since"
        = if Api.truthy since then Some (Api.pyval_of since) else None).
  { intros since. unfold Api.sync, Api._send, Api._send_request.
    rewrite Hupper. rewrite decide_True by (apply list_elem_of_here).
    eexists. split; [reflexivity|]. cbn [Api.rq_params].
    destruct (Api.use_authorization_header api), (Api.truthy (Api.identity api)),
      (Api.truthy sync_filter), (Api.truthy since);
      rewrite ?lookup_insert_ne by done;
      rewrite ?lookup_insert_eq; try done;
      by rewrite lookup_singleton_ne. }
  destruct (Hsend (sync_token c)) as (rq1 & Hrq1 & Hsince1).
  assert (Hfirst : first = (_sync apply_cb fuel (Return (to_response b)) c,
                            [Api.Sent rq1], script)).
  { subst first. unfold _sync_over_http. rewrite Hrq1. unfold ok.
    rewrite request_loop_final by done. reflexivity. }
  destruct (triple_sync apply_cb c (sync_token c) (dom (client_rooms c)) fuel b
              Hwb Hty Hfuel c (st_refl c)) as (Hres & _ & Hst).
  destruct Hst as (_ & _ & _ & _ & _ & Htok & _).
  subst second. rewrite Hfirst. cbn [fst snd].
  split; [done|]. split; [done|]. split.
  { exists rq1. split; [done|]. intros Hnone. by rewrite Hsince1, Hnone. }
  unfold _sync_over_http. rewrite Htok.
  destruct (Hsend (Some (b_next_batch b))) as (rq2 & Hrq2 & Hsince2).
  rewrite Hrq2.
  destruct (Api.request_loop (Api.default_429_wait_ms api) rq2 script)
    as [[r2 w2] rest2] eqn:Hloop.
  cbn [fst snd].
  pose proof (request_loop_sends_one_request (Api.default_429_wait_ms api) rq2 script)
    as [Hall Hsome].
  rewrite Hloop in Hall, Hsome. cbn [fst snd] in Hall, Hsome.
  split; [|done].
  eapply Forall_impl; [exact Hall|]. intros rq ->. rewrite Hsince2.
  simpl. destruct (decide (b_next_batch b = "")) as [->|Hne]; [done|].
  by rewrite bool_decide_eq_true_2.
Qed.

Lemma next_poll_continues_from_batch_witness :
  Forall (λ rq : Api.request string, Api.rq_params rq !! "since" = Some (Api.PyStr "s2"))
    (sent_requests
       (_sync_over_http observers "0.3.2" Api.upper_ascii (λ s : string, s)
          api_example None 3 30000
          [slow_down (to_response batch_join); ok (to_response batch_join)]
          (final (_sync_over_http (C := string) observers "0.3.2" Api.upper_ascii
                    (λ s : string, s) api_example None 3 30000
                    [ok (to_response batch_join); slow_down (to_response batch_join);
                     ok (to_response batch_join)]
                    init_client).1.1)).1.2).
Proof.
  pose proof (next_poll_continues_from_batch (C := string) observers "0.3.2"
                Api.upper_ascii (λ s : string, s) api_example None 3 30000 batch_join
                [slow_down (to_response batch_join); ok (to_response batch_join)]
                init_client well_behaved_observers) as H.
  destruct H as (_ & Hrest & _ & Hsince & _).
  - repeat constructor; by eexists.
  - vm_compute. lia.
  - reflexivity.
  - cbv zeta in Hrest, Hsince. rewrite Hrest in Hsince. exact Hsince.
Defined.
